(** * MusicBeeWrapped test-data generator

    A shallow embedding of [generate_test_data.py] and the properties of
    its played-duration sampler, calendar walk and year-summary
    aggregator.

    The first part is the program: Python floats as binary64 numbers, the
    [random] module as a monad over an oracle of raw draws, naive
    datetimes as points of the timeline, the ElementTree documents as
    records, dictionaries as insertion-ordered association lists, and the
    functions of the script under their own names.  The second part is the
    vocabulary of the properties, the third their proofs: the sampler
    (claims C3 and C4), the calendar walk (C1, C2, C9, C10 and C5) and the
    aggregator (C6, C7 and C8). *)

From Stdlib Require Import ZArith List String Ascii Bool Lia SpecFloat.
From Stdlib Require Import DecimalString Sorted.
Import ListNotations.

Local Open Scope Z_scope.

(** ** Python floats

    CPython's [float] is IEEE-754 binary64.  The operations below are the
    ones of the standard library's executable specification [SpecFloat],
    instantiated at precision 53 and maximal exponent 1024. *)
Module Float64.

Definition prec : Z := 53.
Definition emax : Z := 1024.

Definition float := spec_float.

(** [float(n)] for a Python integer (exact below [2^53]). *)
Definition of_int (n : Z) : float := binary_normalize prec emax n 0 false.

(** A decimal literal [num/den] such as [0.8]: the correctly rounded
    quotient of two exactly representable integers is the double nearest
    to the rational, which is what the Python parser yields. *)
Definition lit (num den : Z) : float :=
  SFdiv prec emax (of_int num) (of_int den).

Definition mul (x y : float) : float := SFmul prec emax x y.
Definition ltb (x y : float) : bool := SFltb x y.

(** The builtin [min(a, b)]: the first argument is kept unless the
    second is strictly smaller. *)
Definition min (a b : float) : float := if ltb b a then b else a.

(** The value [k * 2^-53], for [0 <= k < 2^53]. *)
Definition of_draw (k : Z) : float := binary_normalize prec emax k (-53) false.

(** [int(x)]: truncation toward zero; [None] where Python raises
    (infinities and NaN). *)
Definition to_int (x : float) : option Z :=
  match x with
  | S754_zero _ => Some 0
  | S754_finite s m e =>
      let v := if 0 <=? e then Z.shiftl (Zpos m) e
               else Z.shiftr (Zpos m) (- e) in
      Some (if s then - v else v)
  | _ => None
  end.

End Float64.

Declare Scope float_scope.
Delimit Scope float_scope with float.
Infix "*" := Float64.mul : float_scope.
Infix "<?" := Float64.ltb : float_scope.

(** ** The random source

    The Mersenne Twister behind Python's [random] module is modelled by an
    oracle: an infinite sequence of raw integers, read through a cursor.
    Every call consumes one raw value and maps it onto the documented range
    of the call, so that each outcome Python can produce is the image of
    some oracle, and a property proved for every oracle holds on every
    sequence of draws. *)
Module Random.

Definition oracle := N -> Z.

Inductive exn : Type :=
| ValueError      (* randint on an empty range, max of nothing, int(nan) *)
| IndexError      (* choice on an empty sequence, [0] of an empty list *)
| OverflowError   (* int() of an infinity *)
| AttributeError  (* a method called on None *)
| ZeroDivisionError.

(** [Unfinished] is not a Python outcome: it marks a loop of the model
    that used up its iteration budget (see [walk_loop]). *)
Inductive outcome (A : Type) : Type :=
| Ok (a : A) (pos : N)
| Raise (e : exn)
| Unfinished.
Arguments Ok {A} a pos.
Arguments Raise {A} e.
Arguments Unfinished {A}.

(** Computations that read the oracle and may raise. *)
Definition M (A : Type) : Type := oracle -> N -> outcome A.

Definition ret {A} (a : A) : M A := fun _ pos => Ok a pos.

Definition bind {A B} (m : M A) (k : A -> M B) : M B :=
  fun o pos =>
    match m o pos with
    | Ok a pos' => k a o pos'
    | Raise e => Raise e
    | Unfinished => Unfinished
    end.

Definition raise {A} (e : exn) : M A := fun _ _ => Raise e.

(** The iteration budget of a loop is used up. *)
Definition out_of_fuel {A} : M A := fun _ _ => Unfinished.

(** One raw value. *)
Definition draw : M Z := fun o pos => Ok (o pos) (N.succ pos).

(** [random.random()]: the numerator [k] of a float [k / 2^53] in [0, 1). *)
Definition random_bits : M Z :=
  bind draw (fun r => ret (r mod 2 ^ 53)).

Definition random : M Float64.float :=
  bind random_bits (fun k => ret (Float64.of_draw k)).

(** [random.randint(a, b)]: an integer of [a..b], [ValueError] when the
    range is empty. *)
Definition randint (a b : Z) : M Z :=
  if a <=? b then bind draw (fun r => ret (a + r mod (b - a + 1)))
  else raise ValueError.

(** [random.choice(seq)]: [IndexError] on an empty sequence. *)
Definition choice {A} (seq : list A) : M A :=
  match seq with
  | [] => raise IndexError
  | x :: _ =>
      bind draw (fun r =>
        ret (nth (Z.to_nat (r mod Z.of_nat (List.length seq))) seq x))
  end.

(** [int(x)]: [ValueError] on NaN, [OverflowError] on an infinity. *)
Definition int (x : Float64.float) : M Z :=
  match x with
  | S754_nan => raise ValueError
  | _ =>
      match Float64.to_int x with
      | Some n => ret n
      | None => raise OverflowError
      end
  end.

End Random.

Import Random.

Declare Scope py_scope.
Delimit Scope py_scope with py.
Notation "x <- m ;; k" := (bind m (fun x => k))
  (at level 61, m at next level, right associativity) : py_scope.
Local Open Scope py_scope.

(** ** Played-duration sampler *)

Definition f0_7 : Float64.float := Float64.lit 7 10.
Definition f0_9 : Float64.float := Float64.lit 9 10.
Definition f0_8 : Float64.float := Float64.lit 8 10.
Definition f0_5 : Float64.float := Float64.lit 5 10.

Definition generate_realistic_play_duration (track_duration_ms : Z) : M Z :=
  let track_duration_seconds := track_duration_ms / 1000 in
  let secs := Float64.of_int track_duration_seconds in
  u <- random ;;
  if (u <? f0_7)%float then
    lo <- int (secs * f0_8)%float ;;
    randint lo track_duration_seconds
  else
    u' <- random ;;
    if (u' <? f0_9)%float then
      lo <- int (secs * f0_5)%float ;;
      hi <- int (secs * f0_8)%float ;;
      randint lo hi
    else
      hi <- int (secs * f0_5)%float ;;
      randint 30 hi.

(** ** Configuration and name tables *)

Definition TOTAL_PLAYS : Z := 12000.
Definition NUM_ARTISTS : Z := 100.
Definition NUM_ALBUMS : Z := 75.
Definition YEAR : Z := 2024.

Definition ARTISTS : list string :=
  [ "The Beatles"; "Taylor Swift"; "Drake"; "The Rolling Stones";
    "Led Zeppelin"; "Pink Floyd"; "Queen"; "Michael Jackson"; "Madonna";
    "Elvis Presley"; "Bob Dylan"; "The Beach Boys"; "David Bowie"; "Prince";
    "Stevie Wonder"; "Radiohead"; "Nirvana"; "Pearl Jam";
    "Red Hot Chili Peppers"; "U2"; "Coldplay"; "Imagine Dragons";
    "Ed Sheeran"; "Adele"; "Beyoncé"; "Kanye West"; "Jay-Z"; "Eminem";
    "Kendrick Lamar"; "The Weeknd"; "Billie Eilish"; "Ariana Grande";
    "Dua Lipa"; "Post Malone"; "Bruno Mars"; "John Lennon"; "Paul McCartney";
    "George Harrison"; "Ringo Starr"; "The Who"; "AC/DC"; "Metallica";
    "Black Sabbath"; "Iron Maiden"; "Judas Priest"; "Deep Purple"; "Cream";
    "The Doors"; "Jimi Hendrix"; "Janis Joplin"; "Bob Marley";
    "Reggae Kings"; "Jazz Masters"; "Classical Ensemble"; "Folk Heroes";
    "Indie Collective"; "Electronic Dreams"; "Hip Hop Legends";
    "R&B Sensations"; "Country Stars"; "Rock Anthems"; "Pop Icons";
    "Alternative Wave"; "Punk Revolution"; "Grunge Movement";
    "New Wave Artists"; "Synth Pop"; "Dance Floor"; "Chill Vibes";
    "Acoustic Sessions"; "Live Performance"; "Studio Sessions";
    "Remix Artists"; "Cover Bands"; "Tribute Acts"; "Local Bands";
    "Emerging Artists"; "Veteran Musicians"; "Session Players"; "Solo Acts";
    "Duos"; "Trios"; "Quartets"; "Big Bands"; "Orchestras"; "Choirs";
    "A Cappella"; "Gospel Groups"; "Blues Artists"; "Jazz Combos";
    "Folk Singers"; "Singer-Songwriters"; "Instrumentalists"; "Composers";
    "Producers"; "Sound Engineers"; "Mix Artists"; "Beat Makers";
    "Sample Artists"; "Loop Masters"; "Electronic Artists";
    "Ambient Creators"; "Techno Artists"; "House Musicians"; "Trance DJs";
    "Dubstep Producers"; "Drum & Bass"; "Breakbeat Artists"; "Jungle Music";
    "IDM Artists"; "Experimental Music"; "Avant-garde"; "Noise Artists";
    "Drone Music"; "Post-Rock" ]%string.

Definition ALBUMS : list string :=
  [ "Abbey Road"; "Sgt. Pepper's Lonely Hearts Club Band";
    "The Dark Side of the Moon"; "Led Zeppelin IV"; "Thriller";
    "Back in Black"; "The Wall"; "Rumours"; "Hotel California";
    "Born to Run"; "Purple Rain"; "Like a Virgin"; "Nevermind"; "Ten";
    "OK Computer"; "The Joshua Tree"; "Appetite for Destruction";
    "London Calling"; "Born in the U.S.A."; "Graceland"; "Pet Sounds";
    "Revolver"; "Blonde on Blonde"; "Highway 61 Revisited";
    "Are You Experienced"; "What's Going On"; "Songs in the Key of Life";
    "Innervisions"; "Talking Book"; "Hotter Than July"; "Blue";
    "Court and Spark"; "Hejira"; "Don Juan's Reckless Daughter"; "Mingus";
    "Kind of Blue"; "A Love Supreme"; "Giant Steps"; "Bitches Brew";
    "Miles Ahead"; "The Velvet Underground & Nico"; "White Light/White Heat";
    "Loaded"; "Berlin"; "Transformer"; "Hunky Dory";
    "The Rise and Fall of Ziggy Stardust"; "Aladdin Sane"; "Diamond Dogs";
    "Young Americans"; "Station to Station"; "Low"; "Heroes"; "Lodger";
    "Scary Monsters"; "The Man-Machine"; "Computer World";
    "Trans-Europe Express"; "Autobahn"; "Radio-Activity";
    "Unknown Pleasures"; "Closer"; "Power, Corruption & Lies"; "Low-Life";
    "Brotherhood"; "Technique"; "Republic"; "Get Ready";
    "Waiting for the Sirens' Call"; "Lost Sirens"; "Doolittle";
    "Surfer Rosa"; "Come On Pilgrim"; "Bossanova"; "Trompe le Monde";
    "Disintegration"; "The Head on the Door"; "Kiss Me Kiss Me Kiss Me";
    "Wish"; "Wild Mood Swings"; "Bloodflowers"; "The Cure"; "Boys Don't Cry";
    "Seventeen Seconds"; "Faith" ]%string.

Definition GENRES : list string :=
  [ "Rock"; "Pop"; "Hip Hop"; "R&B"; "Country"; "Jazz"; "Blues"; "Folk";
    "Electronic"; "Classical"; "Reggae"; "Punk"; "Metal"; "Alternative";
    "Indie"; "Dance"; "Funk"; "Soul"; "Gospel"; "World Music"; "Ambient";
    "Experimental"; "New Wave"; "Grunge" ]%string.

(** ** Strings *)

(** [str(n)] for an integer. *)
Definition str (n : Z) : string := NilZero.string_of_int (Z.to_int n).

(** [f"{n:02d}"]: decimal, zero-padded to width two. *)
Definition fmt_02d (n : Z) : string :=
  let s := str n in
  if (String.length s <? 2)%nat then ("0" ++ s)%string else s.

(** ASCII whitespace, as recognised by [str.split()] (the name tables hold
    no other Unicode space). *)
Definition is_space (c : ascii) : bool :=
  let n := Z.of_nat (nat_of_ascii c) in
  (n =? 32) || ((9 <=? n) && (n <=? 13)) || ((28 <=? n) && (n <=? 31)).

Fixpoint contains_char (c : ascii) (s : string) : bool :=
  match s with
  | EmptyString => false
  | String c' r => Ascii.eqb c c' || contains_char c r
  end.

Fixpoint skip_spaces (s : string) : string :=
  match s with
  | EmptyString => EmptyString
  | String c r => if is_space c then skip_spaces r else s
  end.

Fixpoint take_word (s : string) : string :=
  match s with
  | EmptyString => EmptyString
  | String c r => if is_space c then EmptyString else String c (take_word r)
  end.

(** [s.split()[0]]: the first whitespace-delimited word; [IndexError] when
    there is none. *)
Definition split_first (s : string) : M string :=
  match skip_spaces s with
  | EmptyString => raise IndexError
  | w => ret (take_word w)
  end.

(** [s.split()[0] if ' ' in s else s] *)
Definition first_word_or_self (s : string) : M string :=
  if contains_char " "%char s then split_first s else ret s.

(** ** Track titles *)

Definition track_prefixes : list string :=
  [ "Love"; "Heart"; "Soul"; "Dream"; "Night"; "Day"; "Light"; "Dark";
    "Fire"; "Water"; "Wind"; "Earth"; "Sky"; "Rain"; "Sun"; "Moon"; "Star";
    "Time"; "Life"; "Death"; "Hope"; "Fear"; "Joy"; "Pain"; "Peace"; "War";
    "Dance"; "Song"; "Music"; "Sound"; "Voice"; "Whisper"; "Scream"; "Cry";
    "Laugh"; "Smile"; "Kiss"; "Touch"; "Feel"; "See"; "Hear"; "Know";
    "Think"; "Believe"; "Wonder"; "Question"; "Answer"; "Truth"; "Lie"; "Real" ]%string.

Definition track_suffixes : list string :=
  [ "Song"; "Blues"; "Anthem"; "Ballad"; "March"; "Waltz"; "Tango"; "Samba";
    "Reggae"; "Funk"; "Rock"; "Pop"; "Jazz"; "Folk"; "Country"; "Soul";
    "Gospel"; "Hymn"; "Prayer"; "Praise"; "Celebration"; "Party"; "Dance";
    "Groove"; "Beat"; "Rhythm"; "Melody"; "Harmony"; "Symphony"; "Sonata";
    "Concerto"; "Overture"; "Prelude"; "Interlude"; "Finale"; "Reprise";
    "Remix"; "Version"; "Mix"; "Edit" ]%string.

(** The twelve candidate titles are all built (each f-string draws its
    words) before one of them is chosen. *)
Definition generate_track_title (artist album : string) : M string :=
  a1 <- choice track_prefixes ;; b1 <- choice track_suffixes ;;
  a2 <- choice track_prefixes ;; b2 <- choice track_prefixes ;;
  a3 <- choice track_prefixes ;;
  a4 <- choice track_prefixes ;;
  v5 <- choice ["Love"; "Need"; "Want"; "Feel"; "See"; "Hear"]%string ;;
  a5 <- choice track_prefixes ;;
  a6 <- choice track_prefixes ;;
  a7 <- choice track_prefixes ;;
  a8 <- choice track_prefixes ;;
  a9 <- choice track_prefixes ;;
  a10 <- choice track_prefixes ;;
  w11 <- first_word_or_self artist ;; b11 <- choice track_suffixes ;;
  w12 <- first_word_or_self album ;; b12 <- choice track_suffixes ;;
  let patterns :=
    [ a1 ++ " " ++ b1;
      a2 ++ " of " ++ b2;
      "The " ++ a3;
      a4 ++ " Me";
      "I " ++ v5 ++ " " ++ a5;
      a6 ++ " Tonight";
      a7 ++ " Forever";
      "Dancing " ++ a8;
      "Walking " ++ a9;
      "Running " ++ a10;
      w11 ++ "'s " ++ b11;
      w12 ++ " " ++ b12 ]%string in
  choice patterns.

(** ** Naive datetimes

    A [datetime] without time zone is a point of the proleptic Gregorian
    timeline; it is represented by the number of seconds elapsed since the
    midnight that opens ordinal day 0, the constructor following CPython's
    [_ymd2ord].  Comparison, [+ timedelta] and [-] are then the integer
    ones, as they are in CPython once both operands are on the timeline.
    The generator only uses whole seconds. *)
Module Datetime.

Definition datetime := Z.

Definition is_leap (y : Z) : bool :=
  (y mod 4 =? 0) && (negb (y mod 100 =? 0) || (y mod 400 =? 0)).

Definition days_before_year (y : Z) : Z :=
  let y' := y - 1 in y' * 365 + y' / 4 - y' / 100 + y' / 400.

Definition days_in_month (y m : Z) : Z :=
  if m =? 2 then (if is_leap y then 29 else 28)
  else if (m =? 4) || (m =? 6) || (m =? 9) || (m =? 11) then 30
  else 31.

Definition days_before_month (y m : Z) : Z :=
  fold_left (fun acc k => acc + days_in_month y (Z.of_nat k))
            (seq 1 (Z.to_nat (m - 1))) 0.

Definition ymd2ord (y m d : Z) : Z :=
  days_before_year y + days_before_month y m + d.

(** [datetime(y, m, d, hh, mm, ss)] *)
Definition make (y m d hh mm ss : Z) : datetime :=
  ymd2ord y m d * 86400 + hh * 3600 + mm * 60 + ss.

Definition toordinal (t : datetime) : Z := t / 86400.

(** [t.hour] *)
Definition hour (t : datetime) : Z := (t mod 86400) / 3600.

(** [t.weekday()]: Monday is 0, Sunday is 6. *)
Definition weekday (t : datetime) : Z := (toordinal t + 6) mod 7.

(** [timedelta(minutes=m)], in seconds. *)
Definition minutes (m : Z) : Z := m * 60.

(** [(a - b).days]: a [timedelta] is normalised with a seconds part in
    [0, 86400), so its day count is the floor. *)
Definition delta_days (a b : datetime) : Z := (a - b) / 86400.

End Datetime.

Import Datetime.

(** ** Tracks and listening patterns *)

Record Track : Type := mkTrack {
  artist : string;
  album : string;
  title : string;
  genre : string;
  year : Z;
  duration : Z
}.

Record pattern : Type := mkPattern {
  start_hour : Z;
  end_hour : Z;
  genres : list string;
  freq_mult : Float64.float
}.

Definition f1_0 : Float64.float := Float64.of_int 1.
Definition f1_2 : Float64.float := Float64.lit 12 10.
Definition f1_3 : Float64.float := Float64.lit 13 10.
Definition f1_5 : Float64.float := Float64.lit 15 10.
Definition f0_95 : Float64.float := Float64.lit 95 100.

(** The dict of patterns, in insertion order (the order [items()] yields). *)
Definition generate_listening_patterns : list (string * pattern) :=
  [ ("morning_commute", mkPattern 7 9 ["Pop"; "Rock"; "Electronic"] f1_2);
    ("work_hours",
      mkPattern 9 17 ["Jazz"; "Classical"; "Ambient"; "Instrumental"] f0_8);
    ("evening_relax",
      mkPattern 18 22 ["Folk"; "Indie"; "Alternative"; "Chill"] f1_0);
    ("weekend_party",
      mkPattern 20 24 ["Dance"; "Hip Hop"; "Pop"; "Electronic"] f1_5);
    ("late_night", mkPattern 22 2 ["Ambient"; "Jazz"; "Blues"; "Soul"] f0_7);
    ("workout",
      mkPattern 6 8 ["Electronic"; "Hip Hop"; "Rock"; "Metal"] f1_3)
  ]%string.

(** The [for ... break] scan over the patterns: the first window that
    holds the hour wins; [("general", None)] when none does. *)
Fixpoint find_pattern (hour : Z) (items : list (string * pattern))
  : string * option pattern :=
  match items with
  | [] => ("general"%string, None)
  | (name, p) :: rest =>
      if start_hour p <=? end_hour p then
        if (start_hour p <=? hour) && (hour <? end_hour p)
        then (name, Some p) else find_pattern hour rest
      else  (* crosses midnight *)
        if (start_hour p <=? hour) || (hour <? end_hour p)
        then (name, Some p) else find_pattern hour rest
  end.

(** ** The play-history document *)

(** A [TrackPlay] element, one field per sub-element.  In the XML tree
    every sub-element holds text: an integer field holds [str(n)] and
    [PlayedAt] the [strftime] rendering of the clock (milliseconds and the
    fixed suffix [-07:00] included), which the aggregator reads back with
    [int] and [fromisoformat].  The embedding keeps the values that the
    text renders. *)
Record TrackPlay : Type := mkTrackPlay {
  FileUrl : string;
  Title : string;
  Artist : string;
  Album : string;
  AlbumArtist : string;
  Genre : string;
  Year : Z;
  Duration : Z;
  PlayedAt : datetime;
  PlayDuration : Z;
  PlaylistName : string;
  ListeningMode : string
}.

Record PlayHistory : Type := mkPlayHistory {
  Plays : list TrackPlay;
  LastUpdated : datetime
}.

Definition start_date : datetime := make YEAR 1 1 0 0 0.
Definition end_date : datetime := make YEAR 12 31 23 59 59.

Definition make_track : M Track :=
  artist <- choice ARTISTS ;;
  album <- choice ALBUMS ;;
  title <- generate_track_title artist album ;;
  genre <- choice GENRES ;;
  year <- randint 1960 2024 ;;
  duration <- randint 120000 360000 ;;
  ret (mkTrack artist album title genre year duration).

(** [for i in range(n): track_pool.append(...)] *)
Fixpoint build_track_pool (n : nat) (track_pool : list Track)
  : M (list Track) :=
  match n with
  | O => ret track_pool
  | S n' => t <- make_track ;; build_track_pool n' (track_pool ++ [t])
  end.

Fixpoint str_in (s : string) (l : list string) : bool :=
  match l with
  | [] => false
  | x :: r => String.eqb s x || str_in s r
  end.

(** ** The calendar walk *)

(** The local variables of [create_play_history_xml] that the [while]
    loop reads and writes.  [base_probability] is unbound before the first
    iteration. *)
Record walk_state : Type := mkWalk {
  plays_element : list TrackPlay;
  current_plays : Z;
  current_date : datetime;
  base_probability : option Float64.float
}.

(** The value [base_probability] holds when the play/no-play draw is
    compared with it: the assignment of [0.8] that opens every iteration,
    the pattern's multiplier, the weekend boost and the clamp. *)
Definition pattern_probability (pattern_info : option pattern)
    (current_date : datetime) : Float64.float :=
  let base_probability := f0_8 in
  let base_probability :=
    match pattern_info with
    | Some p => (base_probability * freq_mult p)%float
    | None => base_probability
    end in
  let base_probability :=
    if 5 <=? weekday current_date then (base_probability * f1_2)%float
    else base_probability in
  Float64.min base_probability f1_0.

Definition choose_track (track_pool : list Track)
    (pattern_info : option pattern) : M Track :=
  match pattern_info with
  | Some p =>
      match genres p with
      | _ :: _ =>
          let preferred_tracks :=
            filter (fun t => str_in (genre t) (genres p)) track_pool in
          match preferred_tracks with
          | _ :: _ => choice preferred_tracks
          | [] => choice track_pool
          end
      | [] => choice track_pool
      end
  | None => choice track_pool
  end.

Definition playlists : list string :=
  [ "Library"; "Favorites"; "Recently Added"; "Top Rated"; "Dance Mix";
    "Chill Playlist"; "Workout Mix" ]%string.

Definition listening_modes : list string :=
  [ "Sequential"; "Shuffle"; "Repeat All"; "Repeat One" ]%string.

(** The body of [if random.random() < base_probability:]: one [TrackPlay]
    appended to the [Plays] element, stamped with the current clock. *)
Definition emit_play (track_pool : list Track)
    (pattern_info : option pattern) (st : walk_state) : M walk_state :=
  track <- choose_track track_pool pattern_info ;;
  play_duration <- generate_realistic_play_duration (duration track) ;;
  track_no <- randint 1 15 ;;
  let file_path :=
    ("P:\Music\" ++ artist track ++ "\" ++ album track ++ "\"
       ++ fmt_02d track_no ++ ". " ++ title track ++ ".mp3")%string in
  playlist <- choice playlists ;;
  listening_mode <- choice listening_modes ;;
  let track_play :=
    {| FileUrl := file_path;
       Title := title track;
       Artist := artist track;
       Album := album track;
       AlbumArtist := artist track;
       Genre := genre track;
       Year := year track;
       Duration := duration track;
       PlayedAt := current_date st;
       PlayDuration := play_duration;
       PlaylistName := playlist;
       ListeningMode := listening_mode |} in
  ret {| plays_element := plays_element st ++ [track_play];
         current_plays := current_plays st + 1;
         current_date := current_date st;
         base_probability := base_probability st |}.

(** One iteration of the [while] loop. *)
Definition walk_step (total_plays : Z) (track_pool : list Track)
    (st : walk_state) : M walk_state :=
  let hour := hour (current_date st) in
  let '(pattern_name, pattern_info) :=
    find_pattern hour generate_listening_patterns in
  let p := pattern_probability pattern_info (current_date st) in
  let st := {| plays_element := plays_element st;
               current_plays := current_plays st;
               current_date := current_date st;
               base_probability := Some p |} in
  u <- random ;;
  st <- (if (u <? p)%float then emit_play track_pool pattern_info st
         else ret st) ;;
  advance_minutes <- randint 5 60 ;;
  let current_date' := current_date st + minutes advance_minutes in
  let days_remaining := delta_days end_date current_date' in
  (* the comparison of an int with a float is exact in Python; both sides
     are below 2^53 here *)
  let behind :=
    (Float64.of_int (current_plays st)
       <? Float64.of_int total_plays * f0_8)%float in
  ret {| plays_element := plays_element st;
         current_plays := current_plays st;
         current_date := current_date';
         base_probability :=
           if (days_remaining <? 30) && behind then Some f0_95
           else base_probability st |}.

(** [current_plays < TOTAL_PLAYS and current_date <= end_date] *)
Definition walk_guard (total_plays : Z) (st : walk_state) : bool :=
  (current_plays st <? total_plays) && (current_date st <=? end_date).

(** The [while] loop, with an iteration budget: [max_ticks] iterations
    are never used up (see [returns_generate_plays]). *)
Fixpoint walk_loop (fuel : nat) (total_plays : Z) (track_pool : list Track)
    (st : walk_state) : M walk_state :=
  if walk_guard total_plays st
  then
    match fuel with
    | O => out_of_fuel
    | S fuel' =>
        st' <- walk_step total_plays track_pool st ;;
        walk_loop fuel' total_plays track_pool st'
    end
  else ret st.

Definition initial_state : walk_state :=
  {| plays_element := [];
     current_plays := 0;
     current_date := start_date;
     base_probability := None |}.

(** The walk for a given target count, after the pool of 500 tracks is
    built. *)
Definition generate_plays (fuel : nat) (total_plays : Z) : M walk_state :=
  track_pool <- build_track_pool 500 [] ;;
  walk_loop fuel total_plays track_pool initial_state.

(** More iterations than a year holds five-minute steps. *)
Definition max_ticks : nat := Z.to_nat (366 * 24 * 12 + 1).

(** [create_play_history_xml] for a given value of the in-file constant
    [TOTAL_PLAYS]; [now] stands for [datetime.now()]. *)
Definition create_play_history_xml_for (total_plays : Z) (now : datetime)
  : M PlayHistory :=
  st <- generate_plays max_ticks total_plays ;;
  ret {| Plays := plays_element st; LastUpdated := now |}.

Definition create_play_history_xml : datetime -> M PlayHistory :=
  create_play_history_xml_for TOTAL_PLAYS.

(** ** Insertion-ordered dictionaries

    A Python [dict] iterates in insertion order, and [max] over its items
    depends on that order, so a dictionary is an association list without
    duplicate keys: assignment to a present key updates it in place, to a
    new key appends it. *)
Module Dict.

Definition dict (V : Type) : Type := list (string * V).

Fixpoint get {V} (k : string) (d : dict V) : option V :=
  match d with
  | [] => None
  | (k', v) :: r => if String.eqb k k' then Some v else get k r
  end.

(** [k in d] *)
Definition mem {V} (k : string) (d : dict V) : bool :=
  match get k d with Some _ => true | None => false end.

(** [d[k] = v] *)
Fixpoint set {V} (k : string) (v : V) (d : dict V) : dict V :=
  match d with
  | [] => [(k, v)]
  | (k', v') :: r =>
      if String.eqb k k' then (k', v) :: r else (k', v') :: set k v r
  end.

Definition keys {V} (d : dict V) : list string := map fst d.

(** [d.items()] *)
Definition items {V} (d : dict V) : list (string * V) := d.

End Dict.

(** [if k in d: d[k] += 1 else: d[k] = 1] *)
Definition count_key (k : string) (d : Dict.dict Z) : Dict.dict Z :=
  match Dict.get k d with
  | Some n => Dict.set k (n + 1) d
  | None => Dict.set k 1 d
  end.

(** [max(iterable, key=key)]: the first of the maximal items ([max] only
    replaces its candidate by a strictly greater one); [None] where Python
    raises [ValueError] on an empty iterable. *)
Definition max_by {A} (key : A -> Z) (l : list A) : option A :=
  match l with
  | [] => None
  | x :: r =>
      Some (fold_left (fun best y => if key best <? key y then y else best)
                      r x)
  end.

(** ** The year-summary document *)

Module Meta.
Record t : Type := mk {
  Year : Z;
  TotalPlays : Z;
  TotalMinutes : Z;
  FirstPlay : datetime;
  LastPlay : datetime;
  TopArtist : string;
  TopTrack : string;
  TopGenre : string;
  LastUpdated : datetime
}.
End Meta.

(** The result of a function that draws nothing: a value or an exception. *)
Inductive result (A : Type) : Type :=
| Return (a : A)
| Raised (e : exn).
Arguments Return {A} a.
Arguments Raised {A} e.

(** The statistics the [for play in plays] loop accumulates. *)
Record stats : Type := mkStats {
  artists : Dict.dict Z;
  tracks : Dict.dict Z;
  genre_counts : Dict.dict Z;
  total_duration : Z;
  first_play : option datetime;
  last_play : option datetime
}.

Definition empty_stats : stats :=
  {| artists := []; tracks := []; genre_counts := [];
     total_duration := 0; first_play := None; last_play := None |}.

(** Truth value of a string: non-empty. *)
Definition truthy (s : string) : bool :=
  match s with EmptyString => false | _ => true end.

Definition track_key (play : TrackPlay) : string :=
  (Artist play ++ " - " ++ Title play)%string.

(** The body of the aggregation loop.  The text of [PlayDuration] and of
    [PlayedAt] is read back with [int] and [fromisoformat]; the embedding
    keeps the integer and the datetime they render. *)
Definition aggregate_play (acc : stats) (play : TrackPlay) : stats :=
  let played_at := PlayedAt play in
  {| first_play :=
       match first_play acc with
       | None => Some played_at
       | Some f => if played_at <? f then Some played_at else Some f
       end;
     last_play :=
       match last_play acc with
       | None => Some played_at
       | Some l => if l <? played_at then Some played_at else Some l
       end;
     artists := count_key (Artist play) (artists acc);
     tracks := count_key (track_key play) (tracks acc);
     genre_counts :=
       if truthy (Genre play) then count_key (Genre play) (genre_counts acc)
       else genre_counts acc;
     total_duration := total_duration acc + PlayDuration play |}.

Definition top_of (d : Dict.dict Z) : result string :=
  match max_by snd (Dict.items d) with
  | Some item => Return (fst item)
  | None => Raised ValueError
  end.

Definition create_year_metadata_xml (now : datetime)
    (play_history_root : PlayHistory) : result (option Meta.t) :=
  let plays := Plays play_history_root in
  if (List.length plays =? 0)%nat then Return None
  else
    let s := fold_left aggregate_play plays empty_stats in
    match top_of (artists s) with
    | Raised e => Raised e
    | Return top_artist =>
    match top_of (tracks s) with
    | Raised e => Raised e
    | Return top_track =>
    match (match genre_counts s with
           | [] => Return ""%string
           | _ => top_of (genre_counts s)
           end) with
    | Raised e => Raised e
    | Return top_genre =>
    match first_play s, last_play s with
    | Some first, Some last =>
        Return (Some {| Meta.Year := YEAR;
                        Meta.TotalPlays := Z.of_nat (List.length plays);
                        Meta.TotalMinutes := total_duration s / 60;
                        Meta.FirstPlay := first;
                        Meta.LastPlay := last;
                        Meta.TopArtist := top_artist;
                        Meta.TopTrack := top_track;
                        Meta.TopGenre := top_genre;
                        Meta.LastUpdated := now |})
    | _, _ => Raised AttributeError
    end end end end.

(** ** The script *)

Inductive document : Type :=
| PlayHistoryXml (root : PlayHistory)
| YearMetadataXml (metadata_root : Meta.t).

(** [main] for a given [TOTAL_PLAYS]: the files written into the data
    directory, in order, and how the script ends.  The read-back check is
    wrapped in [try]/[except] and only prints; the closing statistics
    divide by [len(plays)]. *)
Definition main_for (total_plays : Z) (now now' : datetime) (o : oracle)
  : list (string * document) * outcome unit :=
  match create_play_history_xml_for total_plays now o 0%N with
  | Raise e => ([], Raise e)
  | Unfinished => ([], Unfinished)
  | Ok root pos =>
      let files := [("play_history.xml"%string, PlayHistoryXml root)] in
      match create_year_metadata_xml now' root with
      | Raised e => (files, Raise e)
      | Return metadata_root =>
          let files :=
            match metadata_root with
            | Some m => files ++ [("year_metadata.xml"%string, YearMetadataXml m)]
            | None => files
            end in
          let files :=
            files ++ [("play_history_backup.xml"%string, PlayHistoryXml root)] in
          if (List.length (Plays root) =? 0)%nat
          then (files, Raise ZeroDivisionError)
          else (files, Ok tt pos)
      end
  end.

Definition main : datetime -> datetime -> oracle
  -> list (string * document) * outcome unit :=
  main_for TOTAL_PLAYS.

(** * Vocabulary of the properties *)

(** The integers [lo, lo + 1, ...], [n] of them. *)
Definition Zrange (lo : Z) (n : nat) : list Z :=
  map (fun i => lo + Z.of_nat i) (seq 0 n).

(** ** The branches of the sampler *)

(** The three branches of the sampler. *)
Inductive tier : Type := HighTier | MidTier | LowTier.

(** Which branch the two comparisons of the sampler select: the sampler
    is this selection followed by [sample_in_tier] (see
    [sampler_factors]). *)
Definition select_tier : M tier :=
  u <- random ;;
  if (u <? f0_7)%float then ret HighTier
  else
    u' <- random ;;
    if (u' <? f0_9)%float then ret MidTier else ret LowTier.

(** What each branch draws, for a track of [s] whole seconds. *)
Definition sample_in_tier (t : tier) (s : Z) : M Z :=
  let secs := Float64.of_int s in
  match t with
  | HighTier => lo <- int (secs * f0_8)%float ;; randint lo s
  | MidTier =>
      lo <- int (secs * f0_5)%float ;;
      hi <- int (secs * f0_8)%float ;;
      randint lo hi
  | LowTier => hi <- int (secs * f0_5)%float ;; randint 30 hi
  end.

(** The interval of each branch. *)
Definition tier_interval (t : tier) (s : Z) (d : Z) : Prop :=
  match t with
  | HighTier => 4 * s / 5 <= d <= s
  | MidTier => s / 2 <= d <= 4 * s / 5
  | LowTier => 30 <= d <= s / 2
  end.

(** ** Total correctness on every sequence of draws *)

(** [returns_on o m Q]: reading the oracle [o] from any cursor, [m]
    neither raises nor runs out of budget, and its value satisfies [Q]. *)
Definition returns_on {A} (o : oracle) (m : M A) (Q : A -> Prop) : Prop :=
  forall pos, exists a pos', m o pos = Ok a pos' /\ Q a.

(** [returns m Q]: the same on every oracle, that is, on every sequence
    of random draws. *)
Definition returns {A} (m : M A) (Q : A -> Prop) : Prop :=
  forall o, returns_on o m Q.

(** ** The invariant of the calendar walk *)

(** A word the title generator can take the first word of: it has no
    space, or something other than whitespace. *)
Definition has_first_word (s : string) : bool :=
  negb (contains_char " "%char s)
  || match skip_spaces s with EmptyString => false | _ => true end.

(** What the pool builder guarantees of a track. *)
Definition track_ok (t : Track) : Prop :=
  120000 <= duration t <= 360000 /\ In (genre t) GENRES.

Definition pool_ok (track_pool : list Track) : Prop :=
  track_pool <> [] /\ Forall track_ok track_pool.

(** What the walk guarantees of a play it emits at clock value [now]. *)
Definition play_ok (now : datetime) (p : TrackPlay) : Prop :=
  PlayedAt p = now /\
  120000 <= Duration p <= 360000 /\
  0 <= PlayDuration p <= Duration p / 1000 /\
  In (Genre p) GENRES.

(** The effect of one tick: the clock advances by 5 to 60 minutes, and at
    most one play, stamped with the clock value before the advance, is
    appended. *)
Definition tick (st st' : walk_state) : Prop :=
  current_date st + 300 <= current_date st' <= current_date st + 3600 /\
  ((plays_element st' = plays_element st /\
    current_plays st' = current_plays st)
   \/ exists p, play_ok (current_date st) p /\
        plays_element st' = plays_element st ++ [p] /\
        current_plays st' = current_plays st + 1).

(** The loop invariant of the walk. *)
Definition walk_inv (total_plays : Z) (st : walk_state) : Prop :=
  current_plays st = Z.of_nat (List.length (plays_element st)) /\
  current_plays st <= Z.max 0 total_plays /\
  start_date <= current_date st /\
  Forall (fun p => start_date <= PlayedAt p <= end_date /\
                   PlayedAt p < current_date st /\
                   play_ok (PlayedAt p) p) (plays_element st) /\
  StronglySorted Z.lt (map PlayedAt (plays_element st)).

(** The loop has left: its guard is false. *)
Definition walk_done (total_plays : Z) (st : walk_state) : Prop :=
  total_plays <= current_plays st \/ end_date < current_date st.

(** What one tick does to the clock and to the [Plays] element, when the
    advance drawn is [advance_minutes]. *)
Definition tick_by (advance_minutes : Z) (st st' : walk_state) : Prop :=
  current_date st' = current_date st + minutes advance_minutes /\
  ((plays_element st' = plays_element st /\
    current_plays st' = current_plays st)
   \/ exists p, play_ok (current_date st) p /\
        plays_element st' = plays_element st ++ [p] /\
        current_plays st' = current_plays st + 1).

(** An oracle whose every raw value is 55: each advance drawn by
    [randint(5, 60)] is then 60 minutes. *)
Definition hourly_oracle : oracle := fun _ => 55.

(** Along a walk that advances by whole hours, no more plays have been
    emitted than hours have passed. *)
Definition hourly_inv (total_plays : Z) (st : walk_state) : Prop :=
  walk_inv total_plays st /\
  3600 * current_plays st <= current_date st - start_date /\
  current_date st <= end_date + 3600.

(** ** The mode of a list of strings *)

(** Number of occurrences of [x] in [l]. *)
Definition occurrences (x : string) (l : list string) : nat :=
  count_occ string_dec l x.

(** Position at which [x] is first encountered in [l] (the length of [l]
    when it never is). *)
Fixpoint first_index (x : string) (l : list string) : nat :=
  match l with
  | [] => O
  | y :: r => if String.eqb x y then O else S (first_index x r)
  end.

(** [x] is the mode of [l], ties resolved in favour of the value first
    encountered: [x] occurs in [l], no value occurs more often, and no value
    that occurs as often is encountered earlier. *)
Definition is_mode (l : list string) (x : string) : Prop :=
  In x l /\
  forall y, In y l ->
    (occurrences y l <= occurrences x l)%nat /\
    (occurrences y l = occurrences x l ->
     (first_index x l <= first_index y l)%nat).

(** The counts dictionary the aggregation loop builds from the values it
    meets. *)
Definition count_dict (l : list string) : Dict.dict Z :=
  fold_left (fun d k => count_key k d) l [].

(** The distinct values of a list, in the order they are first met. *)
Definition distinct (l : list string) : list string :=
  fold_left (fun ks k => if str_in k ks then ks else ks ++ [k]) l [].

(** The values with a genre: the aggregator counts a genre only when the
    text is non-empty. *)
Definition counted_genres (plays : list TrackPlay) : list string :=
  filter truthy (map Genre plays).

(** ** Sample inputs *)

(** A play-history document in which two of three plays have no genre. *)
Definition genreless_history : PlayHistory :=
  let play (title genre : string) (at_ : datetime) : TrackPlay :=
    {| FileUrl := "P:\Music\Queen\Rumours\01. " ++ title ++ ".mp3";
       Title := title; Artist := "Queen"; Album := "Rumours";
       AlbumArtist := "Queen"; Genre := genre; Year := 1977;
       Duration := 200000; PlayedAt := at_; PlayDuration := 180;
       PlaylistName := "Library"; ListeningMode := "Shuffle" |}%string in
  {| Plays := [ play "Love Song" "" start_date;
                play "The Night" "" (start_date + 3600);
                play "Rain Me" "Rock" (start_date + 7200) ]%string;
     LastUpdated := end_date |}.

(** Loop variables at 09:00 on Tuesday 10 December, with the target far
    away: fewer than 30 days remain.  (An iteration reads the clock and
    the count, and only appends to the plays.) *)
Definition december_state : walk_state :=
  {| plays_element := [];
     current_plays := 0;
     current_date := make YEAR 12 10 9 0 0;
     base_probability := None |}.

(** An oracle whose every raw value makes the play/no-play draw about 0.9
    and the advance 60 minutes. *)
Definition draw_0_9 : Z := 8106479329266975.

Definition oracle_0_9 : oracle := fun _ => draw_0_9.

(** A pool of one track. *)
Definition one_track_pool : list Track :=
  [ {| artist := "Queen"; album := "Rumours"; title := "Love Song";
       genre := "Rock"; year := 1977; duration := 200000 |}%string ].

(** ** The probabilities of the sampler's branches *)

(** The branch taken, as a function of the numerators [k1] and [k2] of the
    first and second [random.random()] draws ([k / 2^53]): the thresholds
    are the numerators of the doubles [0.7] and [0.9]. *)
Definition tier_of_draws (k1 k2 : Z) : tier :=
  if k1 <? 6305039478318694 then HighTier
  else if k2 <? 8106479329266893 then MidTier
  else LowTier.

(** The oracle whose first raw value is [k1] and whose later ones are [k2]. *)
Definition two_draws (k1 k2 : Z) : oracle :=
  fun n => if (n =? 0)%N then k1 else k2.

Definition tier_eqb (t t' : tier) : bool :=
  match t, t' with
  | HighTier, HighTier | MidTier, MidTier | LowTier, LowTier => true
  | _, _ => false
  end.

(** The sampler takes branch [t] when its draws are [k1] then [k2]. *)
Definition takes (t : tier) (k1 k2 : Z) : bool :=
  match select_tier (two_draws k1 k2) 0%N with
  | Ok t' _ => tier_eqb t t'
  | _ => false
  end.

(** All pairs of draw numerators below [n]: with [n = 2^53], the equally
    likely outcomes of two independent uniform draws. *)
Definition draw_pairs (n : nat) : list (Z * Z) :=
  list_prod (Zrange 0 n) (Zrange 0 n).

(** How many of these pairs make the sampler take branch [t]. *)
Definition tier_count (n : nat) (t : tier) : Z :=
  Z.of_nat (List.length
              (filter (fun p => takes t (fst p) (snd p)) (draw_pairs n))).

(** [random.random()] has 53 bits. *)
Definition resolution : nat := Z.to_nat (2 ^ 53).

(** * Vocabulary of the further properties *)


(** The test the pattern scan makes of one window: [start <= hour < end],
    or, for a window that crosses midnight, [hour >= start or hour < end]. *)
Definition window_holds (p : pattern) (hour : Z) : bool :=
  if start_hour p <=? end_hour p
  then (start_hour p <=? hour) && (hour <? end_hour p)
  else (start_hour p <=? hour) || (hour <? end_hour p).

(** The window in which the clock value [t] falls, and the probability of
    a play at [t]. *)
Definition window_at (t : datetime) : option pattern :=
  snd (find_pattern (hour t) generate_listening_patterns).

Definition probability_at (t : datetime) : Float64.float :=
  pattern_probability (window_at t) t.

(** What the pool builder makes of a track. *)
Definition track_wf (t : Track) : Prop :=
  In (artist t) ARTISTS /\ In (album t) ALBUMS /\
  title t <> ""%string /\ In (genre t) GENRES /\
  1960 <= year t <= 2024 /\ 120000 <= duration t <= 360000.

(** The file path of track [t] with track number [n]. *)
Definition file_url (t : Track) (n : Z) : string :=
  ("P:\Music\" ++ artist t ++ "\" ++ album t ++ "\"
     ++ fmt_02d n ++ ". " ++ title t ++ ".mp3")%string.

(** Some track of the pool has a genre that the window prefers. *)
Definition pool_has_preferred (track_pool : list Track) (pat : pattern)
  : Prop :=
  exists t, In t track_pool /\ str_in (genre t) (genres pat) = true.

(** [p] is a play of the track [t] of the pool: the track's metadata
    copied, a path built from it, a played duration within the track's
    length, labels from the two fixed lists, and a genre that the window
    of the play prefers whenever the pool has one. *)
Definition play_of_track (track_pool : list Track) (t : Track)
    (p : TrackPlay) : Prop :=
  In t track_pool /\
  (exists n, 1 <= n <= 15 /\ FileUrl p = file_url t n) /\
  Title p = title t /\ Artist p = artist t /\ Album p = album t /\
  AlbumArtist p = artist t /\ Genre p = genre t /\ Year p = year t /\
  Duration p = duration t /\
  30 <= PlayDuration p <= duration t / 1000 /\
  In (PlaylistName p) playlists /\
  In (ListeningMode p) listening_modes /\
  (forall pat, window_at (PlayedAt p) = Some pat ->
     pool_has_preferred track_pool pat ->
     str_in (genre t) (genres pat) = true).

Definition play_of (track_pool : list Track) (p : TrackPlay) : Prop :=
  exists t, play_of_track track_pool t p.

(** The first play comes before 23:00 on 1 January; while there is none,
    the clock is before that hour. *)
Definition early_play (st : walk_state) : Prop :=
  match plays_element st with
  | [] => current_date st < start_date + 23 * 3600
  | p :: _ => PlayedAt p < start_date + 23 * 3600
  end.

(** The invariant of the walk over a given pool, with what it keeps of
    every play. *)
Definition pool_walk_inv (total_plays : Z) (track_pool : list Track)
    (st : walk_state) : Prop :=
  walk_inv total_plays st /\
  Forall (play_of track_pool) (plays_element st) /\
  early_play st.

(** What every generated play holds in its fields. *)
Definition play_fields_ok (p : TrackPlay) : Prop :=
  In (Artist p) ARTISTS /\ AlbumArtist p = Artist p /\
  In (Album p) ALBUMS /\ Title p <> ""%string /\
  In (Genre p) GENRES /\ 1960 <= Year p <= 2024 /\
  120000 <= Duration p <= 360000 /\
  30 <= PlayDuration p <= Duration p / 1000 /\
  In (PlaylistName p) playlists /\
  In (ListeningMode p) listening_modes /\
  exists n, 1 <= n <= 15 /\
    FileUrl p = ("P:\Music\" ++ Artist p ++ "\" ++ Album p ++ "\"
                   ++ fmt_02d n ++ ". " ++ Title p ++ ".mp3")%string.

(** [p] copies the metadata of the track [t]. *)
Definition copies_track (t : Track) (p : TrackPlay) : Prop :=
  Title p = title t /\ Artist p = artist t /\ Album p = album t /\
  AlbumArtist p = artist t /\ Genre p = genre t /\ Year p = year t /\
  Duration p = duration t.

(** The three files of a complete run. *)
Definition three_files (root : PlayHistory) (m : Meta.t)
  : list (string * document) :=
  [ ("play_history.xml", PlayHistoryXml root);
    ("year_metadata.xml", YearMetadataXml m);
    ("play_history_backup.xml", PlayHistoryXml root) ]%string.

(** The seconds played over a sequence of plays. *)
Definition total_played (plays : list TrackPlay) : Z :=
  fold_right (fun p acc => PlayDuration p + acc) 0 plays.

(** The statistics of the aggregation loop over a sequence of plays. *)
Definition aggregate (plays : list TrackPlay) : stats :=
  fold_left aggregate_play plays empty_stats.

(** The count a dictionary should hold for a value that occurs [n]
    times: none when it does not occur. *)
Definition count_entry (n : nat) : option Z :=
  match n with
  | O => None
  | S _ => Some (Z.of_nat n)
  end.

(** [t.second], the field that [%S] renders. *)
Definition second (t : datetime) : Z := t mod 60.

(** The pace of the walk: the clock is on a whole minute; every play is
    stamped on a whole minute, five minutes at least before the clock and
    before the next play; and as long as the target is not reached, there
    are as many plays as days have gone by. *)
Definition paced_inv (total_plays : Z) (st : walk_state) : Prop :=
  second (current_date st) = 0 /\
  Forall (fun p => second (PlayedAt p) = 0 /\
                   PlayedAt p + 300 <= current_date st)
         (plays_element st) /\
  StronglySorted (fun a b => a + 300 <= b)
                 (map PlayedAt (plays_element st)) /\
  Z.min total_plays ((current_date st - start_date) / 86400)
    <= current_plays st.

(** * Properties *)

(** ** The model on sample inputs *)

(** The doubles of the decimal literals. *)
Example literal_0_8 : f0_8 = S754_finite false 7205759403792794 (-53).
Proof. vm_compute. reflexivity. Qed.

Example literal_0_95 : f0_95 = S754_finite false 8556839292003942 (-53).
Proof. vm_compute. reflexivity. Qed.

(** [int(155 * 0.8)] is 124 and [12000 * 0.8] is 9600.0. *)
Example int_155_times_0_8 :
  Float64.to_int (Float64.of_int 155 * f0_8)%float = Some 124.
Proof. vm_compute. reflexivity. Qed.

Example eighty_percent_of_target :
  (Float64.of_int TOTAL_PLAYS * f0_8)%float = Float64.of_int 9600.
Proof. vm_compute. reflexivity. Qed.

(** 1 January 2024 is a Monday; the year has 366 days. *)
Example year_starts_on_monday : weekday start_date = 0.
Proof. vm_compute. reflexivity. Qed.

Example year_length : end_date - start_date = 366 * 86400 - 1.
Proof. vm_compute. reflexivity. Qed.

Example december_state_is_a_tuesday :
  weekday (current_date december_state) = 1 /\
  hour (current_date december_state) = 9 /\
  delta_days end_date (current_date december_state) = 21.
Proof. vm_compute. auto. Qed.

(** The window of each hour of the day: the first match in the order of
    the patterns. *)
Example windows_by_hour :
  map (fun h => fst (find_pattern h generate_listening_patterns))
      (Zrange 0 24)
  = [ "late_night"; "late_night"; "general"; "general"; "general";
      "general"; "workout"; "morning_commute"; "morning_commute";
      "work_hours"; "work_hours"; "work_hours"; "work_hours"; "work_hours";
      "work_hours"; "work_hours"; "work_hours"; "general"; "evening_relax";
      "evening_relax"; "evening_relax"; "evening_relax"; "weekend_party";
      "weekend_party" ]%string.
Proof. vm_compute. reflexivity. Qed.

(** A track of 200 s: the three branches of the sampler. *)
Example sampler_high : generate_realistic_play_duration 200000
                         hourly_oracle 0%N = Ok 174 2%N.
Proof. vm_compute. reflexivity. Qed.

Example sampler_mid : generate_realistic_play_duration 200000
                        (two_draws (2 ^ 53 - 1) 0) 0%N = Ok 100 3%N.
Proof. vm_compute. reflexivity. Qed.

Example sampler_low : generate_realistic_play_duration 200000
                        (fun _ => 2 ^ 53 - 1) 0%N = Ok 41 3%N.
Proof. vm_compute. reflexivity. Qed.

(** Under 60 s of nominal duration, outside the pool's range, the low
    branch draws from an empty range. *)
Example sampler_short_track : generate_realistic_play_duration 50000
                                (fun _ => 2 ^ 53 - 1) 0%N = Raise ValueError.
Proof. vm_compute. reflexivity. Qed.

Example first_words :
  first_word_or_self "The Beatles" hourly_oracle 0%N = Ok "The"%string 0%N /\
  first_word_or_self "Queen" hourly_oracle 0%N = Ok "Queen"%string 0%N /\
  fmt_02d 7 = "07"%string.
Proof. vm_compute. auto. Qed.

(** The first track of the pool, and the history generated for a target
    of two plays, when every raw value is 55. *)
Example first_track :
  make_track hourly_oracle 0%N
  = Ok {| artist := "Indie Collective"; album := "The Man-Machine";
          title := "Dancing Day"; genre := "Folk"; year := 2015;
          duration := 120055 |}%string 21%N.
Proof. vm_compute. reflexivity. Qed.

Example two_plays :
  match create_play_history_xml_for 2 0 hourly_oracle 0%N with
  | Ok root _ =>
      map (fun p => (FileUrl p, PlayedAt p - start_date, PlayDuration p))
          (Plays root)
  | _ => []
  end
  = [ ("P:\Music\Indie Collective\The Man-Machine\11. Dancing Day.mp3",
       0, 101);
      ("P:\Music\Indie Collective\The Man-Machine\11. Dancing Day.mp3",
       3600, 101) ]%string.
Proof. vm_compute. reflexivity. Qed.

(** Counting: a tie goes to the key met first. *)
Example counts_and_tie :
  Dict.items (count_dict ["b"; "a"; "b"; "c"; "a"]%string)
    = [ ("b", 2); ("a", 2); ("c", 1) ]%string /\
  top_of (count_dict ["b"; "a"; "b"; "c"; "a"]%string) = Return "b"%string /\
  top_of (count_dict ["c"; "a"; "b"; "b"; "a"]%string) = Return "a"%string.
Proof. vm_compute. auto. Qed.

Example summary_of_genreless_history :
  create_year_metadata_xml 0 genreless_history
  = Return (Some {| Meta.Year := 2024; Meta.TotalPlays := 3;
                    Meta.TotalMinutes := 9;
                    Meta.FirstPlay := start_date;
                    Meta.LastPlay := start_date + 7200;
                    Meta.TopArtist := "Queen";
                    Meta.TopTrack := "Queen - Love Song";
                    Meta.TopGenre := "Rock";
                    Meta.LastUpdated := 0 |}%string).
Proof. vm_compute. reflexivity. Qed.

(** With a target of 0 the script writes two files and then fails in its
    closing statistics, which divide by the number of plays. *)
Example main_with_no_target :
  map fst (fst (main_for 0 0 0 hourly_oracle))
    = [ "play_history.xml"; "play_history_backup.xml" ]%string /\
  snd (main_for 0 0 0 hourly_oracle) = Raise ZeroDivisionError.
Proof. vm_compute. auto. Qed.


(** ** Reasoning about computations *)

Section ReturnsOn.
Context (o : oracle).

Lemma returns_on_ret {A} (a : A) (Q : A -> Prop) :
  Q a -> returns_on o (ret a) Q.
Proof. intros H pos. exists a, pos. split; [reflexivity | exact H]. Qed.

Lemma returns_on_bind {A B} (m : M A) (k : A -> M B) (P : A -> Prop)
    (Q : B -> Prop) :
  returns_on o m P -> (forall a, P a -> returns_on o (k a) Q) ->
  returns_on o (bind m k) Q.
Proof.
  intros Hm Hk pos. unfold bind.
  destruct (Hm pos) as (a & pos' & -> & Ha).
  exact (Hk a Ha pos').
Qed.

Lemma returns_on_weaken {A} (m : M A) (P Q : A -> Prop) :
  returns_on o m P -> (forall a, P a -> Q a) -> returns_on o m Q.
Proof.
  intros Hm HPQ pos. destruct (Hm pos) as (a & pos' & E & Ha).
  exists a, pos'. split; [exact E | exact (HPQ a Ha)].
Qed.

Lemma returns_on_if {A} (b : bool) (m1 m2 : M A) (Q : A -> Prop) :
  returns_on o m1 Q -> returns_on o m2 Q ->
  returns_on o (if b then m1 else m2) Q.
Proof. destruct b; auto. Qed.

End ReturnsOn.

Lemma returns_ret {A} (a : A) (Q : A -> Prop) : Q a -> returns (ret a) Q.
Proof. intros H o. now apply returns_on_ret. Qed.

Lemma returns_bind {A B} (m : M A) (k : A -> M B) (P : A -> Prop)
    (Q : B -> Prop) :
  returns m P -> (forall a, P a -> returns (k a) Q) -> returns (bind m k) Q.
Proof.
  intros Hm Hk o. apply returns_on_bind with (P := P); [apply Hm |].
  intros a Ha. now apply Hk.
Qed.

Lemma returns_weaken {A} (m : M A) (P Q : A -> Prop) :
  returns m P -> (forall a, P a -> Q a) -> returns m Q.
Proof. intros Hm HPQ o. now apply returns_on_weaken with (P := P). Qed.

Lemma returns_draw : returns draw (fun _ => True).
Proof.
  intros o pos. exists (o pos), (N.succ pos). split; reflexivity || exact I.
Qed.

Lemma returns_random_bits : returns random_bits (fun k => 0 <= k < 2 ^ 53).
Proof.
  eapply returns_bind; [exact returns_draw |].
  intros r _. apply returns_ret. apply Z.mod_pos_bound. reflexivity.
Qed.

Lemma returns_random : returns random (fun _ => True).
Proof.
  eapply returns_bind; [exact returns_random_bits |].
  intros k _. apply returns_ret. exact I.
Qed.

Lemma returns_randint (a b : Z) :
  a <= b -> returns (randint a b) (fun v => a <= v <= b).
Proof.
  intros Hab. unfold randint.
  destruct (Z.leb_spec a b) as [_ | Hlt]; [| lia].
  eapply returns_bind; [exact returns_draw |].
  intros r _. apply returns_ret.
  pose proof (Z.mod_pos_bound r (b - a + 1)). lia.
Qed.

Lemma returns_choice {A} (l : list A) :
  l <> [] -> returns (choice l) (fun x => In x l).
Proof.
  intros Hl. destruct l as [| x l']; [congruence |].
  unfold choice.
  eapply returns_bind; [exact returns_draw |].
  intros r _. apply returns_ret.
  apply nth_In.
  pose proof (Z.mod_pos_bound r (Z.of_nat (List.length (x :: l')))) as Hb.
  cbn [List.length] in *. lia.
Qed.

Lemma returns_if {A} (b : bool) (m1 m2 : M A) (Q : A -> Prop) :
  returns m1 Q -> returns m2 Q -> returns (if b then m1 else m2) Q.
Proof. destruct b; auto. Qed.

(** ** Bounded checks by enumeration *)

Lemma Zrange_complete (lo : Z) (n : nat) (s : Z) :
  lo <= s < lo + Z.of_nat n -> In s (Zrange lo n).
Proof.
  intros H. unfold Zrange. apply in_map_iff.
  exists (Z.to_nat (s - lo)). split; [lia |].
  apply in_seq. lia.
Qed.

Lemma Zrange_forallb (P : Z -> bool) (lo : Z) (n : nat) :
  forallb P (Zrange lo n) = true ->
  forall s, lo <= s < lo + Z.of_nat n -> P s = true.
Proof.
  intros H s Hs. rewrite forallb_forall in H.
  apply H, Zrange_complete, Hs.
Qed.

(** ** The played-duration sampler (claims C3 and C4) *)

(** [int(s * 0.8)] and [int(s * 0.5)] in binary64, for every whole number
    of seconds a pool track can last: the floors of [4s/5] and [s/2]. *)
Lemma int_scaled_0_8 (s : Z) :
  120 <= s <= 360 ->
  Float64.to_int (Float64.of_int s * f0_8)%float = Some (4 * s / 5).
Proof.
  intros Hs.
  pose (P := fun s =>
    match Float64.to_int (Float64.of_int s * f0_8)%float with
    | Some v => v =? 4 * s / 5
    | None => false
    end).
  assert (HP : P s = true).
  { apply (Zrange_forallb P 120 241); [vm_compute; reflexivity | lia]. }
  unfold P in HP.
  destruct (Float64.to_int _) as [v |]; [| discriminate].
  apply Z.eqb_eq in HP. now subst.
Qed.

Lemma int_scaled_0_5 (s : Z) :
  120 <= s <= 360 ->
  Float64.to_int (Float64.of_int s * f0_5)%float = Some (s / 2).
Proof.
  intros Hs.
  pose (P := fun s =>
    match Float64.to_int (Float64.of_int s * f0_5)%float with
    | Some v => v =? s / 2
    | None => false
    end).
  assert (HP : P s = true).
  { apply (Zrange_forallb P 120 241); [vm_compute; reflexivity | lia]. }
  unfold P in HP.
  destruct (Float64.to_int _) as [v |]; [| discriminate].
  apply Z.eqb_eq in HP. now subst.
Qed.

(** The sampler is the selection of a branch followed by its draw. *)
Lemma sampler_factors (track_duration_ms : Z) (o : oracle) (pos : N) :
  generate_realistic_play_duration track_duration_ms o pos
  = (t <- select_tier ;; sample_in_tier t (track_duration_ms / 1000)) o pos.
Proof.
  cbv beta iota zeta delta [generate_realistic_play_duration select_tier
    sample_in_tier bind random random_bits draw ret].
  destruct (Float64.ltb _ f0_7); [reflexivity |].
  destruct (Float64.ltb _ f0_9); reflexivity.
Qed.

Lemma returns_select_tier : returns select_tier (fun _ => True).
Proof.
  unfold select_tier.
  eapply returns_bind; [exact returns_random |]. intros u _.
  apply returns_if; [now apply returns_ret |].
  eapply returns_bind; [exact returns_random |]. intros u' _.
  apply returns_if; now apply returns_ret.
Qed.

Lemma int_of_to_int (x : Float64.float) (n : Z) :
  Float64.to_int x = Some n -> int x = ret n.
Proof.
  unfold int. intros H.
  destruct x; try (rewrite H; reflexivity); discriminate.
Qed.

Lemma returns_sample_in_tier (t : tier) (s : Z) :
  120 <= s <= 360 -> returns (sample_in_tier t s) (tier_interval t s).
Proof.
  intros Hs. unfold sample_in_tier.
  rewrite (int_of_to_int _ _ (int_scaled_0_8 s Hs)),
    (int_of_to_int _ _ (int_scaled_0_5 s Hs)).
  destruct t; cbn [tier_interval].
  - apply returns_bind with (P := eq (4 * s / 5));
      [now apply returns_ret | intros lo <-].
    apply returns_randint. Z.div_mod_to_equations; lia.
  - apply returns_bind with (P := eq (s / 2));
      [now apply returns_ret | intros lo <-].
    apply returns_bind with (P := eq (4 * s / 5));
      [now apply returns_ret | intros hi <-].
    apply returns_randint. Z.div_mod_to_equations; lia.
  - apply returns_bind with (P := eq (s / 2));
      [now apply returns_ret | intros hi <-].
    apply returns_randint. Z.div_mod_to_equations; lia.
Qed.

(** The sampler on a pool track: it returns, and its value lies in the
    interval of the branch that the same draws select. *)
Lemma sampler_in_tier_interval (track_duration_ms : Z) (o : oracle)
    (pos : N) :
  120000 <= track_duration_ms <= 360000 ->
  exists t pos1 d pos2,
    select_tier o pos = Ok t pos1 /\
    generate_realistic_play_duration track_duration_ms o pos = Ok d pos2 /\
    tier_interval t (track_duration_ms / 1000) d.
Proof.
  intros Hms.
  assert (Hs : 120 <= track_duration_ms / 1000 <= 360)
    by (Z.div_mod_to_equations; lia).
  rewrite sampler_factors. unfold bind.
  destruct (returns_select_tier o pos) as (t & pos1 & Et & _).
  rewrite Et.
  destruct (returns_sample_in_tier t _ Hs o pos1) as (d & pos2 & Ed & Hd).
  now exists t, pos1, d, pos2.
Qed.

Lemma tier_interval_bounds (t : tier) (s d : Z) :
  120 <= s <= 360 -> tier_interval t s d -> 30 <= d <= s.
Proof.
  intros Hs Hd.
  destruct t; cbn [tier_interval] in Hd; Z.div_mod_to_equations; lia.
Qed.

Lemma returns_sampler (track_duration_ms : Z) :
  120000 <= track_duration_ms <= 360000 ->
  returns (generate_realistic_play_duration track_duration_ms)
    (fun d => 0 <= d <= track_duration_ms / 1000).
Proof.
  intros Hms o pos.
  destruct (sampler_in_tier_interval _ o pos Hms)
    as (t & pos1 & d & pos2 & _ & Ed & Hd).
  exists d, pos2. split; [exact Ed |].
  apply tier_interval_bounds in Hd; [lia |].
  Z.div_mod_to_equations; lia.
Qed.

(** C3.  For a track whose nominal duration is in the pool's range
    (120000 to 360000 ms), on every sequence of random draws the sampler
    returns a whole number of seconds [d] with
    [0 <= d <= track_duration_ms // 1000]; [d] lies in the interval of the
    branch that the draws select, and is at least 30 in the low tier. *)
Theorem played_duration_in_range (track_duration_ms : Z) (o : oracle)
    (pos : N) :
  120000 <= track_duration_ms <= 360000 ->
  exists t pos1 d pos2,
    select_tier o pos = Ok t pos1 /\
    generate_realistic_play_duration track_duration_ms o pos = Ok d pos2 /\
    0 <= d <= track_duration_ms / 1000 /\
    tier_interval t (track_duration_ms / 1000) d /\
    (t = LowTier -> 30 <= d).
Proof.
  intros Hms.
  destruct (sampler_in_tier_interval _ o pos Hms)
    as (t & pos1 & d & pos2 & Et & Ed & Hd).
  exists t, pos1, d, pos2.
  assert (Hs : 120 <= track_duration_ms / 1000 <= 360)
    by (Z.div_mod_to_equations; lia).
  pose proof (tier_interval_bounds _ _ _ Hs Hd).
  repeat split; try assumption; try lia.
Qed.

(** The sampler on a track of 200 s, in its low branch. *)
Lemma played_duration_in_range_witness :
  120000 <= 200000 <= 360000 /\
  exists t pos1 d pos2,
    select_tier (fun _ => 2 ^ 53 - 1) 0%N = Ok t pos1 /\
    generate_realistic_play_duration 200000 (fun _ => 2 ^ 53 - 1) 0%N
      = Ok d pos2 /\
    0 <= d <= 200000 / 1000 /\
    tier_interval t (200000 / 1000) d /\
    (t = LowTier -> 30 <= d).
Proof.
  split; [lia |].
  apply (played_duration_in_range 200000 (fun _ => 2 ^ 53 - 1) 0%N). lia.
Defined.

(** ** The track pool *)

Lemma returns_first_word_or_self (s : string) :
  has_first_word s = true -> returns (first_word_or_self s) (fun _ => True).
Proof.
  unfold has_first_word, first_word_or_self, split_first. intros H.
  destruct (contains_char " " s); cbn in H.
  - destruct (skip_spaces s); [discriminate | now apply returns_ret].
  - now apply returns_ret.
Qed.

Lemma ARTISTS_have_first_word : forallb has_first_word ARTISTS = true.
Proof. vm_compute. reflexivity. Qed.

Lemma ALBUMS_have_first_word : forallb has_first_word ALBUMS = true.
Proof. vm_compute. reflexivity. Qed.

Ltac draw_word :=
  eapply returns_bind;
  [ apply returns_choice; discriminate | intros ? _ ].

Lemma returns_generate_track_title (artist album : string) :
  In artist ARTISTS -> In album ALBUMS ->
  returns (generate_track_title artist album) (fun _ => True).
Proof.
  intros Ha Hb. unfold generate_track_title.
  do 13 draw_word.
  eapply returns_bind.
  { apply returns_first_word_or_self.
    exact (proj1 (forallb_forall _ _) ARTISTS_have_first_word _ Ha). }
  intros w11 _. draw_word.
  eapply returns_bind.
  { apply returns_first_word_or_self.
    exact (proj1 (forallb_forall _ _) ALBUMS_have_first_word _ Hb). }
  intros w12 _. draw_word.
  eapply returns_weaken; [apply returns_choice; discriminate | auto].
Qed.

Lemma returns_make_track : returns make_track track_ok.
Proof.
  unfold make_track.
  eapply returns_bind; [apply (returns_choice ARTISTS); discriminate |].
  intros artist Ha.
  eapply returns_bind; [apply (returns_choice ALBUMS); discriminate |].
  intros album Hb.
  eapply returns_bind; [exact (returns_generate_track_title _ _ Ha Hb) |].
  intros title _.
  eapply returns_bind; [apply (returns_choice GENRES); discriminate |].
  intros genre Hg.
  eapply returns_bind; [apply (returns_randint 1960 2024); lia |].
  intros year _.
  eapply returns_bind; [apply (returns_randint 120000 360000); lia |].
  intros duration Hd.
  apply returns_ret. split; [exact Hd | exact Hg].
Qed.

Lemma returns_build_track_pool (n : nat) (track_pool : list Track) :
  Forall track_ok track_pool ->
  returns (build_track_pool n track_pool)
    (fun l => Forall track_ok l /\
              List.length l = (List.length track_pool + n)%nat).
Proof.
  revert track_pool. induction n as [| n IH]; intros track_pool Hp; cbn.
  - apply returns_ret. split; [exact Hp | lia].
  - eapply returns_bind; [exact returns_make_track |].
    intros t Ht.
    eapply returns_weaken.
    + apply IH. apply Forall_app. split; [exact Hp | now constructor].
    + cbn. intros l [Hl Hlen]. split; [exact Hl |].
      rewrite Hlen, length_app. cbn. lia.
Qed.

Lemma returns_track_pool : returns (build_track_pool 500 []) pool_ok.
Proof.
  eapply returns_weaken; [apply returns_build_track_pool; constructor |].
  cbn. intros l [Hl Hlen]. split; [| exact Hl].
  intros ->. discriminate.
Qed.

(** ** One tick of the calendar walk *)

Lemma returns_choose_track (track_pool : list Track)
    (pattern_info : option pattern) :
  pool_ok track_pool ->
  returns (choose_track track_pool pattern_info) track_ok.
Proof.
  intros [Hne Hall].
  assert (Hpool : returns (choice track_pool) track_ok).
  { eapply returns_weaken; [exact (returns_choice _ Hne) |].
    intros t Ht. exact (proj1 (Forall_forall _ _) Hall t Ht). }
  unfold choose_track.
  destruct pattern_info as [p |]; [| exact Hpool].
  destruct (genres p); [exact Hpool |].
  destruct (filter _ track_pool) as [| t0 l0] eqn:Ef; [exact Hpool |].
  eapply returns_weaken; [apply returns_choice; discriminate |].
  intros t Ht. rewrite <- Ef in Ht. apply filter_In in Ht.
  exact (proj1 (Forall_forall _ _) Hall t (proj1 Ht)).
Qed.

Lemma returns_emit_play (track_pool : list Track)
    (pattern_info : option pattern) (st : walk_state) :
  pool_ok track_pool ->
  returns (emit_play track_pool pattern_info st)
    (fun st' =>
       current_date st' = current_date st /\
       base_probability st' = base_probability st /\
       exists p, play_ok (current_date st) p /\
         plays_element st' = plays_element st ++ [p] /\
         current_plays st' = current_plays st + 1).
Proof.
  intros Hpool. unfold emit_play.
  eapply returns_bind; [exact (returns_choose_track _ _ Hpool) |].
  intros track [Hdur Hgenre].
  eapply returns_bind; [exact (returns_sampler _ Hdur) |].
  intros play_duration Hplayed.
  eapply returns_bind; [apply (returns_randint 1 15); lia |].
  intros track_no _.
  eapply returns_bind; [apply (returns_choice playlists); discriminate |].
  intros playlist _.
  eapply returns_bind;
    [apply (returns_choice listening_modes); discriminate |].
  intros listening_mode _.
  apply returns_ret. cbn.
  repeat split; try reflexivity.
  eexists. split; [| split; reflexivity].
  unfold play_ok. cbn. auto.
Qed.

Lemma walk_step_on (o : oracle) (total_plays : Z)
    (track_pool : list Track) (st : walk_state) (A : Z -> Prop) :
  pool_ok track_pool ->
  returns_on o (randint 5 60) A ->
  returns_on o (walk_step total_plays track_pool st)
    (fun st' => exists advance_minutes,
       A advance_minutes /\ tick_by advance_minutes st st').
Proof.
  intros Hpool Hadv. unfold walk_step.
  destruct (find_pattern _ _) as [pattern_name pattern_info].
  eapply returns_on_bind; [exact (returns_random o) |]. intros u _.
  eapply returns_on_bind with
    (P := fun st1 =>
       current_date st1 = current_date st /\
       ((plays_element st1 = plays_element st /\
         current_plays st1 = current_plays st)
        \/ exists p, play_ok (current_date st) p /\
             plays_element st1 = plays_element st ++ [p] /\
             current_plays st1 = current_plays st + 1)).
  { apply returns_on_if.
    - eapply returns_on_weaken; [exact (returns_emit_play _ _ _ Hpool o) |].
      cbn. intros st1 (Hd & _ & Hp). split; [exact Hd | right; exact Hp].
    - apply returns_on_ret. cbn. auto. }
  intros st1 [Hd Hplays].
  eapply returns_on_bind; [exact Hadv |].
  intros advance_minutes HA.
  apply returns_on_ret. exists advance_minutes. split; [exact HA |].
  unfold tick_by. cbn. rewrite Hd. split; [reflexivity | exact Hplays].
Qed.

Lemma tick_by_tick (advance_minutes : Z) (st st' : walk_state) :
  5 <= advance_minutes <= 60 -> tick_by advance_minutes st st' ->
  tick st st'.
Proof.
  unfold tick_by, tick, minutes. intros Hadv [Hd Hplays].
  split; [lia | exact Hplays].
Qed.

Lemma returns_walk_step (total_plays : Z) (track_pool : list Track)
    (st : walk_state) :
  pool_ok track_pool ->
  returns (walk_step total_plays track_pool st) (tick st).
Proof.
  intros Hpool o.
  eapply returns_on_weaken.
  - apply walk_step_on with (A := fun v => 5 <= v <= 60);
      [exact Hpool | apply returns_randint; lia].
  - cbn. intros st' (adv & Hadv & Ht). exact (tick_by_tick _ _ _ Hadv Ht).
Qed.

(** ** The loop invariant *)

Lemma StronglySorted_snoc {A} (R : A -> A -> Prop) (l : list A) (x : A) :
  StronglySorted R l -> Forall (fun y => R y x) l ->
  StronglySorted R (l ++ [x]).
Proof.
  induction 1 as [| a l Hl IH Ha]; intros Hx; cbn.
  - repeat constructor.
  - inversion Hx; subst. constructor.
    + now apply IH.
    + apply Forall_app. split; [exact Ha | now repeat constructor].
Qed.

Lemma walk_guard_true (total_plays : Z) (st : walk_state) :
  walk_guard total_plays st = true ->
  current_plays st < total_plays /\ current_date st <= end_date.
Proof. unfold walk_guard. lia. Qed.

Lemma walk_guard_false (total_plays : Z) (st : walk_state) :
  walk_guard total_plays st = false -> walk_done total_plays st.
Proof. unfold walk_guard, walk_done. lia. Qed.

Lemma walk_inv_initial (total_plays : Z) : walk_inv total_plays initial_state.
Proof.
  unfold walk_inv, initial_state. cbn.
  repeat split; try lia; constructor.
Qed.

Lemma walk_inv_tick (total_plays : Z) (st st' : walk_state) :
  walk_inv total_plays st -> walk_guard total_plays st = true ->
  tick st st' -> walk_inv total_plays st'.
Proof.
  intros (Hlen & Hmax & Hstart & Hall & Hsorted) Hg [Hdate Hplays].
  apply walk_guard_true in Hg. destruct Hg as [Hlt Hend].
  assert (Hall' : Forall (fun p => start_date <= PlayedAt p <= end_date /\
                     PlayedAt p < current_date st' /\
                     play_ok (PlayedAt p) p) (plays_element st)).
  { eapply Forall_impl; [| exact Hall]. cbv beta.
    intros p (H1 & H2 & H3). split; [exact H1 | split; [lia | exact H3]]. }
  destruct Hplays as [[Ep Ec] | (p & Hp & Ep & Ec)];
    unfold walk_inv; rewrite Ep, Ec.
  - repeat (split; [first [assumption | lia] |]). assumption.
  - pose proof Hp as (Hat & _).
    rewrite length_app, map_app. cbn [List.length map].
    repeat (split; [lia |]). split.
    + apply Forall_app. split; [exact Hall' |].
      constructor; [| constructor].
      rewrite Hat. split; [lia | split; [lia | exact Hp]].
    + apply StronglySorted_snoc; [exact Hsorted |].
      apply Forall_map. eapply Forall_impl; [| exact Hall]. cbv beta.
      intros q (_ & Hq & _). lia.
Qed.

(** ** The loop *)

(** Once the guard is false the loop is left at once, whatever the budget. *)
Lemma walk_loop_done (fuel : nat) (total_plays : Z)
    (track_pool : list Track) (st : walk_state) (o : oracle) (pos : N) :
  walk_guard total_plays st = false ->
  walk_loop fuel total_plays track_pool st o pos = Ok st pos.
Proof. intros Hg. destruct fuel; cbn; rewrite Hg; reflexivity. Qed.

(** A budget that covers the rest of the year in five-minute steps is
    never used up, on an oracle [o] along which an invariant [I] of the
    ticks holds. *)
Lemma walk_loop_on (o : oracle) (total_plays : Z) (track_pool : list Track)
    (I : walk_state -> Prop) :
  (forall st, I st -> walk_guard total_plays st = true ->
     returns_on o (walk_step total_plays track_pool st)
       (fun st' => I st' /\ current_date st + 300 <= current_date st')) ->
  forall (fuel : nat) (st : walk_state),
    I st -> end_date - current_date st < 300 * Z.of_nat fuel ->
    returns_on o (walk_loop fuel total_plays track_pool st)
      (fun st' => I st' /\ walk_done total_plays st').
Proof.
  intros Hstep fuel.
  induction fuel as [| fuel IH]; intros st HI Hfuel; cbn [walk_loop];
    destruct (walk_guard total_plays st) eqn:Hg;
    try (apply returns_on_ret; split;
         [exact HI | exact (walk_guard_false _ _ Hg)]).
  - apply walk_guard_true in Hg. lia.
  - eapply returns_on_bind; [exact (Hstep st HI Hg) |].
    cbn. intros st' [HI' Hadv]. apply IH; [exact HI' | lia].
Qed.

(** A larger budget does not change the result. *)
Lemma walk_loop_fuel_mono (total_plays : Z) (track_pool : list Track)
    (o : oracle) (fuel extra : nat) :
  forall (st st' : walk_state) (pos pos' : N),
    walk_loop fuel total_plays track_pool st o pos = Ok st' pos' ->
    walk_loop (fuel + extra) total_plays track_pool st o pos = Ok st' pos'.
Proof.
  induction fuel as [| fuel IH]; intros st st' pos pos'; cbn [walk_loop].
  - destruct (walk_guard total_plays st) eqn:Hg.
    + discriminate.
    + intros H. rewrite walk_loop_done by exact Hg. exact H.
  - cbn [Nat.add walk_loop].
    destruct (walk_guard total_plays st); [| trivial].
    unfold bind. destruct (walk_step _ _ _ o pos); try discriminate.
    apply IH.
Qed.

Lemma walk_step_keeps_inv (total_plays : Z) (track_pool : list Track)
    (o : oracle) :
  pool_ok track_pool ->
  forall st, walk_inv total_plays st -> walk_guard total_plays st = true ->
    returns_on o (walk_step total_plays track_pool st)
      (fun st' => walk_inv total_plays st' /\
                  current_date st + 300 <= current_date st').
Proof.
  intros Hpool st HI Hg.
  eapply returns_on_weaken; [exact (returns_walk_step _ _ st Hpool o) |].
  cbn. intros st' Ht. split.
  - exact (walk_inv_tick _ _ _ HI Hg Ht).
  - destruct Ht as [Hd _]. lia.
Qed.

Lemma year_fits_budget (extra : nat) :
  end_date - current_date initial_state
  < 300 * Z.of_nat (max_ticks + extra).
Proof.
  assert (E : end_date - current_date initial_state = 31622399)
    by (vm_compute; reflexivity).
  assert (F : Z.of_nat max_ticks = 105409) by (vm_compute; reflexivity).
  rewrite E, Nat2Z.inj_add, F. lia.
Qed.

(** The walk on every oracle and with every budget of at least
    [max_ticks]: it returns a state that satisfies the invariant and in
    which the guard is false. *)
Lemma returns_generate_plays (total_plays : Z) (extra : nat) :
  returns (generate_plays (max_ticks + extra) total_plays)
    (fun st => walk_inv total_plays st /\ walk_done total_plays st).
Proof.
  intros o. unfold generate_plays.
  eapply returns_on_bind; [exact (returns_track_pool o) |].
  intros track_pool Hpool.
  apply walk_loop_on.
  - exact (walk_step_keeps_inv _ _ _ Hpool).
  - apply walk_inv_initial.
  - apply year_fits_budget.
Qed.

Lemma returns_create_play_history_xml (total_plays : Z) (now : datetime) :
  returns (create_play_history_xml_for total_plays now)
    (fun root => exists st,
       Plays root = plays_element st /\
       walk_inv total_plays st /\ walk_done total_plays st).
Proof.
  unfold create_play_history_xml_for.
  eapply returns_bind.
  - rewrite <- (Nat.add_0_r max_ticks). apply returns_generate_plays.
  - cbv beta. intros st [HI Hdone]. apply returns_ret.
    exists st. cbn. auto.
Qed.

(** Every generated play comes from a pool track and was played for no
    longer than the track lasts. *)
Lemma generated_play_durations (total_plays : Z) (now : datetime)
    (o : oracle) (pos : N) :
  exists root pos',
    create_play_history_xml_for total_plays now o pos = Ok root pos' /\
    Forall (fun p => 120000 <= Duration p <= 360000 /\
                     0 <= PlayDuration p <= Duration p / 1000)
           (Plays root).
Proof.
  destruct (returns_create_play_history_xml total_plays now o pos)
    as (root & pos' & E & st & Ep & (_ & _ & _ & Hall & _) & _).
  exists root, pos'. split; [exact E |].
  rewrite Ep. eapply Forall_impl; [| exact Hall].
  cbv beta. intros p (_ & _ & _ & Hd & Hp & _). auto.
Qed.

(** ** The walk that advances by whole hours *)

Lemma hourly_advance : returns_on hourly_oracle (randint 5 60) (eq 60).
Proof. intros pos. eexists _, _. split; reflexivity. Qed.

Lemma hourly_inv_initial (total_plays : Z) :
  hourly_inv total_plays initial_state.
Proof.
  split; [apply walk_inv_initial |].
  assert (E : end_date - start_date = 31622399) by (vm_compute; reflexivity).
  unfold initial_state. cbn [current_plays current_date]. lia.
Qed.

Lemma hourly_step (total_plays : Z) (track_pool : list Track) :
  pool_ok track_pool ->
  forall st, hourly_inv total_plays st ->
    walk_guard total_plays st = true ->
    returns_on hourly_oracle (walk_step total_plays track_pool st)
      (fun st' => hourly_inv total_plays st' /\
                  current_date st + 300 <= current_date st').
Proof.
  intros Hpool st (HI & Hhours & Hlate) Hg.
  eapply returns_on_weaken;
    [exact (walk_step_on _ total_plays _ st _ Hpool hourly_advance) |].
  cbv beta. intros st' (adv & <- & Ht).
  pose proof (tick_by_tick 60 _ _ ltac:(lia) Ht) as Htick.
  pose proof (walk_inv_tick _ _ _ HI Hg Htick) as HI'.
  apply walk_guard_true in Hg.
  destruct Ht as [Hd Hplays]. unfold minutes in Hd.
  split; [split; [exact HI' |] |]; [| lia].
  destruct Hplays as [[_ Ec] | (p & _ & _ & Ec)]; lia.
Qed.

Lemma hourly_walk (total_plays : Z) :
  returns_on hourly_oracle (generate_plays max_ticks total_plays)
    (fun st => walk_done total_plays st /\ current_plays st <= 8784).
Proof.
  unfold generate_plays.
  eapply returns_on_bind; [exact (returns_track_pool hourly_oracle) |].
  intros track_pool Hpool.
  eapply returns_on_weaken.
  - apply walk_loop_on with (I := hourly_inv total_plays).
    + exact (hourly_step _ _ Hpool).
    + apply hourly_inv_initial.
    + rewrite <- (Nat.add_0_r max_ticks). apply year_fits_budget.
  - cbv beta. intros st [(_ & Hhours & Hlate) Hdone].
    split; [exact Hdone |].
    assert (E : end_date - start_date = 31622399)
      by (vm_compute; reflexivity).
    lia.
Qed.

(** ** The claims on the calendar walk *)

(** C1.  On every sequence of random draws the generator returns a
    play-history document whose number of [TrackPlay] elements does not
    exceed the target: for every configured target (a negative one counts
    as zero), and so for the shipped [TOTAL_PLAYS]. *)
Theorem play_count_never_exceeds_target :
  (forall (total_plays : Z) (now : datetime) (o : oracle) (pos : N),
     exists root pos',
       create_play_history_xml_for total_plays now o pos = Ok root pos' /\
       Z.of_nat (List.length (Plays root)) <= Z.max 0 total_plays) /\
  (forall (now : datetime) (o : oracle) (pos : N),
     exists root pos',
       create_play_history_xml now o pos = Ok root pos' /\
       Z.of_nat (List.length (Plays root)) <= TOTAL_PLAYS).
Proof.
  assert (H : forall total_plays now o pos,
     exists root pos',
       create_play_history_xml_for total_plays now o pos = Ok root pos' /\
       Z.of_nat (List.length (Plays root)) <= Z.max 0 total_plays).
  { intros total_plays now o pos.
    destruct (returns_create_play_history_xml total_plays now o pos)
      as (root & pos' & E & st & Ep & (Hlen & Hmax & _) & _).
    exists root, pos'. split; [exact E |].
    rewrite Ep, <- Hlen. exact Hmax. }
  split; [exact H |].
  intros now o pos. exact (H TOTAL_PLAYS now o pos).
Qed.

(** C2.  Every play of the generated document is stamped within the
    target year: from January 1, 00:00:00 to December 31, 23:59:59. *)
Theorem plays_within_year :
  forall (total_plays : Z) (now : datetime) (o : oracle) (pos : N),
    exists root pos',
      create_play_history_xml_for total_plays now o pos = Ok root pos' /\
      Forall (fun p => make YEAR 1 1 0 0 0 <= PlayedAt p
                       <= make YEAR 12 31 23 59 59) (Plays root).
Proof.
  intros total_plays now o pos.
  destruct (returns_create_play_history_xml total_plays now o pos)
    as (root & pos' & E & st & Ep & (_ & _ & _ & Hall & _) & _).
  exists root, pos'. split; [exact E |].
  rewrite Ep. eapply Forall_impl; [| exact Hall].
  cbv beta. intros p [Hp _]. exact Hp.
Qed.

Lemma Sorted_lt_le (l : list Z) : StronglySorted Z.lt l -> Sorted Z.le l.
Proof.
  intros H. apply StronglySorted_Sorted in H.
  induction H as [| a l Hl IH Ha]; constructor; [exact IH |].
  destruct Ha; constructor. lia.
Qed.

(** C9.  The [TrackPlay] elements are in emission order: each [PlayedAt]
    is at least the one before it (in fact strictly later). *)
Theorem plays_in_time_order :
  forall (total_plays : Z) (now : datetime) (o : oracle) (pos : N),
    exists root pos',
      create_play_history_xml_for total_plays now o pos = Ok root pos' /\
      Sorted Z.le (map PlayedAt (Plays root)) /\
      StronglySorted Z.lt (map PlayedAt (Plays root)).
Proof.
  intros total_plays now o pos.
  destruct (returns_create_play_history_xml total_plays now o pos)
    as (root & pos' & E & st & Ep & (_ & _ & _ & _ & Hsorted) & _).
  exists root, pos'. split; [exact E |].
  rewrite Ep. split; [exact (Sorted_lt_le _ Hsorted) | exact Hsorted].
Qed.

(** C10.  The walk terminates on every sequence of random draws: with a
    budget of [max_ticks] iterations, or any larger one, the loop returns
    (the budget is not used up and nothing is raised), it returns the same
    state whatever the budget, and in that state the target is reached or
    the clock is past the end of the year.  The loop is left as soon as
    its guard is false, and every iteration advances the clock by 5 to 60
    minutes.  The walk may finish under the target: when every advance is
    60 minutes the year has 8784 ticks, fewer than [TOTAL_PLAYS]. *)
Theorem walk_always_terminates :
  (forall (total_plays : Z) (extra : nat) (o : oracle) (pos : N),
     exists st pos',
       generate_plays max_ticks total_plays o pos = Ok st pos' /\
       generate_plays (max_ticks + extra) total_plays o pos = Ok st pos' /\
       (total_plays <= current_plays st \/ end_date < current_date st)) /\
  (forall (fuel : nat) (total_plays : Z) (track_pool : list Track)
          (st : walk_state) (o : oracle) (pos : N),
     walk_guard total_plays st = false ->
     walk_loop fuel total_plays track_pool st o pos = Ok st pos) /\
  (forall (total_plays : Z) (track_pool : list Track) (st : walk_state)
          (o : oracle) (pos : N),
     pool_ok track_pool ->
     exists st' pos',
       walk_step total_plays track_pool st o pos = Ok st' pos' /\
       current_date st + 5 * 60 <= current_date st'
         <= current_date st + 60 * 60) /\
  (exists (o : oracle) st pos',
     generate_plays max_ticks TOTAL_PLAYS o 0%N = Ok st pos' /\
     current_plays st < TOTAL_PLAYS /\ end_date < current_date st).
Proof.
  split; [| split; [| split]].
  - intros total_plays extra o pos.
    pose proof (returns_generate_plays total_plays 0 o pos) as H.
    rewrite Nat.add_0_r in H.
    destruct H as (st & pos' & E & _ & Hdone).
    exists st, pos'. split; [exact E |]. split; [| exact Hdone].
    unfold generate_plays, bind in E |- *.
    destruct (build_track_pool 500 [] o pos) as [pool pos1 | |];
      try discriminate.
    now apply walk_loop_fuel_mono.
  - intros fuel total_plays track_pool st o pos.
    apply walk_loop_done.
  - intros total_plays track_pool st o pos Hpool.
    destruct (returns_walk_step total_plays _ st Hpool o pos)
      as (st' & pos' & E & Hd & _).
    exists st', pos'. split; [exact E | lia].
  - destruct (hourly_walk TOTAL_PLAYS 0%N) as (st & pos' & E & Hdone & Hle).
    exists hourly_oracle, st, pos'. split; [exact E |].
    unfold TOTAL_PLAYS in *. destruct Hdone as [Hge | Hend]; lia.
Qed.
(** ** Strings in lists *)

Lemma str_in_In (s : string) (l : list string) :
  str_in s l = true <-> In s l.
Proof.
  induction l as [| x l IH]; cbn; [split; [discriminate | tauto] |].
  rewrite orb_true_iff, IH, String.eqb_eq. split; intros [H | H]; auto.
Qed.

Lemma str_in_not_In (s : string) (l : list string) :
  str_in s l = false <-> ~ In s l.
Proof.
  rewrite <- str_in_In. destruct (str_in s l); split; congruence.
Qed.

Lemma first_index_le (x : string) (l : list string) :
  (first_index x l <= List.length l)%nat.
Proof. induction l as [| y l IH]; cbn; [lia | destruct (x =? y)%string; lia]. Qed.

Lemma first_index_In (x : string) (l : list string) :
  (first_index x l < List.length l)%nat <-> In x l.
Proof.
  induction l as [| y l IH]; cbn; [split; [lia | tauto] |].
  destruct (String.eqb_spec x y) as [-> | Hne].
  - split; [auto | lia].
  - rewrite <- Nat.succ_lt_mono, IH. split; [auto | intros [H | H]; congruence].
Qed.

Lemma first_index_app_l (x : string) (l1 l2 : list string) :
  In x l1 -> first_index x (l1 ++ l2) = first_index x l1.
Proof.
  induction l1 as [| y l1 IH]; cbn; [tauto |].
  destruct (String.eqb_spec x y) as [-> | Hne]; [reflexivity |].
  intros [H | H]; [congruence | now rewrite IH].
Qed.

Lemma first_index_app_r (x : string) (l1 l2 : list string) :
  ~ In x l1 ->
  first_index x (l1 ++ l2) = (List.length l1 + first_index x l2)%nat.
Proof.
  induction l1 as [| y l1 IH]; cbn; [reflexivity |].
  intros H. destruct (String.eqb_spec x y) as [-> | Hne]; [tauto |].
  rewrite IH; tauto.
Qed.

(** ** Distinct values, in first-met order *)

Lemma distinct_snoc (l : list string) (a : string) :
  distinct (l ++ [a])
  = if str_in a (distinct l) then distinct l else distinct l ++ [a].
Proof. unfold distinct. now rewrite fold_left_app. Qed.

Lemma distinct_In (l : list string) (k : string) :
  In k (distinct l) <-> In k l.
Proof.
  induction l as [| a l IH] using rev_ind; [reflexivity |].
  rewrite distinct_snoc, in_app_iff. cbn [In].
  destruct (str_in a (distinct l)) eqn:E.
  - apply str_in_In in E. rewrite IH in *.
    split; [tauto | intros [H | [<- | []]]; tauto].
  - rewrite in_app_iff, IH. reflexivity.
Qed.

Lemma distinct_NoDup (l : list string) : NoDup (distinct l).
Proof.
  induction l as [| a l IH] using rev_ind; [constructor |].
  rewrite distinct_snoc.
  destruct (str_in a (distinct l)) eqn:E; [exact IH |].
  apply str_in_not_In in E.
  apply NoDup_app; [exact IH | repeat constructor; tauto | ].
  intros k Hk [<- | []]. tauto.
Qed.

(** The order of [distinct l] is the order of first encounter in [l]. *)
Lemma distinct_order (l : list string) (x y : string) :
  In x l -> In y l ->
  (first_index x (distinct l) < first_index y (distinct l))%nat ->
  (first_index x l < first_index y l)%nat.
Proof.
  induction l as [| a l IH] using rev_ind; [cbn; tauto |].
  rewrite distinct_snoc.
  destruct (str_in a (distinct l)) eqn:E.
  - apply str_in_In in E. rewrite distinct_In in E.
    intros Hx Hy.
    assert (Hx' : In x l)
      by (apply in_app_iff in Hx; destruct Hx as [| [<- | []]]; assumption).
    assert (Hy' : In y l)
      by (apply in_app_iff in Hy; destruct Hy as [| [<- | []]]; assumption).
    rewrite !first_index_app_l by assumption. now apply IH.
  - apply str_in_not_In in E. rewrite distinct_In in E.
    intros Hx Hy Hlt.
    destruct (in_dec string_dec x l) as [Hxl | Hxl].
    + rewrite (first_index_app_l x) by assumption.
      destruct (in_dec string_dec y l) as [Hyl | Hyl].
      * rewrite (first_index_app_l y) by assumption.
        apply IH; try assumption.
        rewrite !first_index_app_l in Hlt by now apply distinct_In.
        exact Hlt.
      * rewrite (first_index_app_r y) by assumption.
        apply first_index_In in Hxl. lia.
    + exfalso.
      rewrite (first_index_app_r x) in Hlt by now rewrite distinct_In.
      pose proof (first_index_le y (distinct l ++ [a])) as Hle.
      assert (x = a)
        by (apply in_app_iff in Hx; destruct Hx as [| [<- | []]]; tauto).
      subst x.
      destruct (in_dec string_dec y l) as [Hyl | Hyl].
      * rewrite (first_index_app_l y) in Hlt by now apply distinct_In.
        apply (proj2 (distinct_In l y)), first_index_In in Hyl. lia.
      * assert (y = a)
          by (apply in_app_iff in Hy; destruct Hy as [| [<- | []]]; tauto).
        subst y.
        rewrite (first_index_app_r a) in Hlt by now rewrite distinct_In.
        lia.
Qed.

(** ** Dictionaries *)

Lemma dict_get_None {V} (k : string) (d : Dict.dict V) :
  Dict.get k d = None <-> str_in k (Dict.keys d) = false.
Proof.
  unfold Dict.keys.
  induction d as [| [k' v] d IH]; cbn; [tauto |].
  destruct (String.eqb k k'); cbn; [split; discriminate | exact IH].
Qed.

Lemma dict_keys_set {V} (k : string) (v : V) (d : Dict.dict V) :
  Dict.keys (Dict.set k v d)
  = if str_in k (Dict.keys d) then Dict.keys d else Dict.keys d ++ [k].
Proof.
  unfold Dict.keys.
  induction d as [| [k' v'] d IH]; cbn; [reflexivity |].
  destruct (String.eqb k k'); cbn; [reflexivity |].
  rewrite IH. now destruct (str_in k (map fst d)).
Qed.

Lemma dict_get_set {V} (k k' : string) (v : V) (d : Dict.dict V) :
  Dict.get k' (Dict.set k v d)
  = if String.eqb k' k then Some v else Dict.get k' d.
Proof.
  induction d as [| [k0 v0] d IH]; cbn.
  - now destruct (String.eqb k' k).
  - destruct (String.eqb_spec k k0) as [-> | Hne]; cbn.
    + now destruct (String.eqb k' k0).
    + rewrite IH.
      destruct (String.eqb_spec k' k0) as [-> | Hne'].
      * destruct (String.eqb_spec k0 k); congruence.
      * reflexivity.
Qed.

Lemma dict_In_get {V} (k : string) (v : V) (d : Dict.dict V) :
  NoDup (Dict.keys d) -> In (k, v) d -> Dict.get k d = Some v.
Proof.
  unfold Dict.keys.
  induction d as [| [k0 v0] d IH]; cbn; [tauto |].
  intros Hnd [H | H].
  - injection H as -> ->. now rewrite String.eqb_refl.
  - inversion Hnd as [| ? ? Hk0 Hnd']; subst.
    destruct (String.eqb_spec k k0) as [-> | Hne].
    + exfalso. apply Hk0. apply in_map_iff. now exists (k0, v).
    + now apply IH.
Qed.

Lemma keys_count_key (k : string) (d : Dict.dict Z) :
  Dict.keys (count_key k d)
  = if str_in k (Dict.keys d) then Dict.keys d else Dict.keys d ++ [k].
Proof. unfold count_key. destruct (Dict.get k d); apply dict_keys_set. Qed.

Lemma get_count_key (k k' : string) (d : Dict.dict Z) :
  Dict.get k' (count_key k d)
  = if String.eqb k' k
    then Some (match Dict.get k d with Some n => n + 1 | None => 1 end)
    else Dict.get k' d.
Proof. unfold count_key. destruct (Dict.get k d); apply dict_get_set. Qed.

Lemma count_dict_snoc (l : list string) (a : string) :
  count_dict (l ++ [a]) = count_key a (count_dict l).
Proof. unfold count_dict. now rewrite fold_left_app. Qed.

Lemma keys_count_dict (l : list string) :
  Dict.keys (count_dict l) = distinct l.
Proof.
  induction l as [| a l IH] using rev_ind; [reflexivity |].
  now rewrite count_dict_snoc, keys_count_key, distinct_snoc, IH.
Qed.

Lemma occurrences_snoc (k a : string) (l : list string) :
  occurrences k (l ++ [a])
  = (occurrences k l + if String.eqb k a then 1 else 0)%nat.
Proof.
  unfold occurrences. rewrite count_occ_app. cbn.
  destruct (string_dec a k) as [-> | Hne].
  - now rewrite String.eqb_refl.
  - destruct (String.eqb_spec k a); congruence.
Qed.

(** The dictionary holds, for each value met, its number of occurrences. *)
Lemma get_count_dict (l : list string) (k : string) :
  Dict.get k (count_dict l)
  = match occurrences k l with
    | O => None
    | S n => Some (Z.of_nat (S n))
    end.
Proof.
  induction l as [| a l IH] using rev_ind; [reflexivity |].
  rewrite count_dict_snoc, get_count_key, occurrences_snoc.
  destruct (String.eqb_spec k a) as [-> | Hne].
  - rewrite IH. destruct (occurrences a l) as [| n]; cbn [Nat.add].
    + reflexivity.
    + rewrite Nat.add_1_r. f_equal. lia.
  - now rewrite IH, Nat.add_0_r.
Qed.

(** ** The builtin [max] with a key *)

Lemma fold_max_split {A} (key : A -> Z) (r l1 l2 : list A) (best : A) :
  (forall y, In y l1 -> key y < key best) ->
  (forall y, In y l2 -> key y <= key best) ->
  exists l1' l2',
    let b := fold_left (fun best y => if key best <? key y then y else best)
                       r best in
    l1 ++ best :: l2 ++ r = l1' ++ b :: l2' /\
    (forall y, In y l1' -> key y < key b) /\
    (forall y, In y l2' -> key y <= key b).
Proof.
  revert l1 l2 best.
  induction r as [| y r IH]; intros l1 l2 best H1 H2; cbn [fold_left].
  - exists l1, l2. rewrite app_nil_r. auto.
  - destruct (Z.ltb_spec (key best) (key y)) as [Hlt | Hge].
    + destruct (IH (l1 ++ best :: l2) [] y) as (l1' & l2' & E & Hl1 & Hl2).
      * intros z Hz. apply in_app_iff in Hz.
        destruct Hz as [Hz | [<- | Hz]];
          [specialize (H1 z Hz) | | specialize (H2 z Hz)]; lia.
      * intros z [].
      * exists l1', l2'. cbn zeta in *. split; [| auto].
        rewrite <- E. rewrite <- !app_assoc. reflexivity.
    + destruct (IH l1 (l2 ++ [y]) best) as (l1' & l2' & E & Hl1 & Hl2).
      * exact H1.
      * intros z Hz. apply in_app_iff in Hz.
        destruct Hz as [Hz | [<- | []]]; [now apply H2 | lia].
      * exists l1', l2'. cbn zeta in *. split; [| auto].
        rewrite <- E. rewrite <- !app_assoc. reflexivity.
Qed.

(** [max] returns the first of the maximal items: the items before it
    have a strictly smaller key, those after it a key no greater. *)
Lemma max_by_first_max {A} (key : A -> Z) (l : list A) :
  l <> [] ->
  exists b l1 l2,
    max_by key l = Some b /\ l = l1 ++ b :: l2 /\
    (forall y, In y l1 -> key y < key b) /\
    (forall y, In y l2 -> key y <= key b).
Proof.
  destruct l as [| x r]; [congruence |]. intros _.
  destruct (fold_max_split key r [] [] x) as (l1 & l2 & E & H1 & H2);
    try (intros y []).
  cbn zeta in *. eexists _, l1, l2. split; [reflexivity |].
  split; [exact E | auto].
Qed.

(** ** The most frequent key of a counts dictionary *)

Lemma NoDup_app_In_l {A} (l1 l2 : list A) (x : A) :
  NoDup (l1 ++ l2) -> In x l1 -> ~ In x l2.
Proof.
  induction l1 as [| a l1 IH]; cbn; [tauto |].
  intros Hnd [-> | Hx] Hx2; inversion Hnd as [| ? ? Ha Hnd']; subst.
  - apply Ha, in_app_iff. now right.
  - now apply (IH Hnd' Hx).
Qed.

Lemma count_dict_entry (l : list string) (k : string) (v : Z) :
  In (k, v) (count_dict l) ->
  In k l /\ v = Z.of_nat (occurrences k l).
Proof.
  intros Hin.
  assert (Hk : In k l).
  { apply distinct_In. rewrite <- keys_count_dict.
    apply in_map_iff. now exists (k, v). }
  split; [exact Hk |].
  apply dict_In_get in Hin;
    [| rewrite keys_count_dict; apply distinct_NoDup].
  rewrite get_count_dict in Hin.
  destruct (occurrences k l); [discriminate | congruence].
Qed.

Lemma top_of_count_dict (l : list string) :
  l <> [] -> exists x, top_of (count_dict l) = Return x /\ is_mode l x.
Proof.
  intros Hl.
  assert (Hne : count_dict l <> []).
  { destruct l as [| a l']; [congruence |].
    assert (Ha : In a (Dict.keys (count_dict (a :: l'))))
      by (rewrite keys_count_dict; apply distinct_In; now left).
    intros E. rewrite E in Ha. exact Ha. }
  destruct (max_by_first_max snd _ Hne)
    as ([x n] & D1 & D2 & Emax & ED & H1 & H2).
  unfold top_of, Dict.items. rewrite Emax. exists x.
  split; [reflexivity |]. cbn [fst snd] in *.
  assert (Hx : In (x, n) (count_dict l))
    by (rewrite ED; apply in_elt).
  apply count_dict_entry in Hx. destruct Hx as [Hxl Hn].
  pose proof (distinct_NoDup l) as Hnd.
  rewrite <- keys_count_dict, ED in Hnd. unfold Dict.keys in Hnd.
  rewrite map_app in Hnd. cbn [map fst] in Hnd.
  split; [exact Hxl |].
  intros y Hy.
  assert (Hyk : In y (Dict.keys (count_dict l)))
    by (rewrite keys_count_dict; now apply distinct_In).
  apply in_map_iff in Hyk. destruct Hyk as ([y' m] & Ey & Hym).
  cbn [fst] in Ey. subst y'.
  pose proof (count_dict_entry _ _ _ Hym) as [_ Hm].
  rewrite ED in Hym. apply in_app_iff in Hym.
  destruct Hym as [Hym | [Hym | Hym]].
  - specialize (H1 _ Hym). cbn [snd] in H1. split; lia.
  - injection Hym as -> ->. split; lia.
  - specialize (H2 _ Hym). cbn [snd] in H2. split; [lia |].
    intros _. apply Nat.lt_le_incl.
    apply distinct_order; [exact Hxl | exact Hy |].
    rewrite <- keys_count_dict, ED. unfold Dict.keys.
    rewrite map_app. cbn [map fst].
    apply NoDup_remove_2 in Hnd as Hx1.
    assert (Hy2 : In y (map fst D2))
      by (apply in_map_iff; now exists (y, m)).
    assert (Hy1 : ~ In y (map fst D1)).
    { intros Hy1. apply NoDup_remove_1 in Hnd.
      exact (NoDup_app_In_l _ _ y Hnd Hy1 Hy2). }
    assert (Hxy : x <> y).
    { intros ->. apply Hx1. apply in_app_iff. now right. }
    rewrite (first_index_app_r x), (first_index_app_r y)
      by (try assumption; intros H; apply Hx1, in_app_iff; now left).
    cbn [first_index]. rewrite String.eqb_refl.
    destruct (String.eqb_spec y x); [congruence | lia].
Qed.

Lemma count_dict_nonempty (l : list string) : l <> [] -> count_dict l <> [].
Proof.
  intros Hl. destruct (top_of_count_dict l Hl) as (x & E & _).
  intros Hd. rewrite Hd in E. discriminate.
Qed.

(** ** The summary aggregator (claims C6, C7 and C8) *)

Lemma fold_aggregate_counts (plays : list TrackPlay) (s : stats) :
  let s' := fold_left aggregate_play plays s in
  artists s'
    = fold_left (fun d k => count_key k d) (map Artist plays) (artists s) /\
  tracks s'
    = fold_left (fun d k => count_key k d) (map track_key plays) (tracks s) /\
  genre_counts s'
    = fold_left (fun d k => count_key k d) (counted_genres plays)
        (genre_counts s).
Proof.
  revert s. induction plays as [| p plays IH]; intros s; [cbn; auto |].
  cbn [fold_left map]. specialize (IH (aggregate_play s p)).
  cbv zeta in *. destruct IH as (-> & -> & ->).
  unfold counted_genres. cbn [map filter aggregate_play artists tracks
    genre_counts].
  now destruct (truthy (Genre p)).
Qed.

Lemma fold_aggregate_dates (plays : list TrackPlay) (s : stats) :
  first_play s <> None -> last_play s <> None ->
  first_play (fold_left aggregate_play plays s) <> None /\
  last_play (fold_left aggregate_play plays s) <> None.
Proof.
  revert s. induction plays as [| p plays IH]; intros s Hf Hl; [cbn; auto |].
  cbn [fold_left]. apply IH; cbn.
  - destruct (first_play s) as [f |]; [| discriminate].
    destruct (PlayedAt p <? f); discriminate.
  - destruct (last_play s) as [l |]; [| discriminate].
    destruct (l <? PlayedAt p); discriminate.
Qed.

(** What the aggregator returns on a non-empty [Plays] element. *)
Lemma summary_of_plays (now : datetime) (root : PlayHistory) :
  Plays root <> [] ->
  exists m,
    create_year_metadata_xml now root = Return (Some m) /\
    Meta.TotalPlays m = Z.of_nat (List.length (Plays root)) /\
    is_mode (map Artist (Plays root)) (Meta.TopArtist m) /\
    is_mode (map track_key (Plays root)) (Meta.TopTrack m) /\
    match counted_genres (Plays root) with
    | [] => Meta.TopGenre m = ""%string
    | gs => is_mode gs (Meta.TopGenre m)
    end.
Proof.
  intros Hne. unfold create_year_metadata_xml.
  destruct (Plays root) as [| p plays] eqn:Ep; [congruence |].
  cbn [List.length Nat.eqb].
  destruct (fold_aggregate_counts (p :: plays) empty_stats)
    as (Ea & Et & Eg).
  cbv zeta in Ea, Et, Eg. rewrite Ea, Et, Eg.
  change (fold_left (fun d k => count_key k d) ?l (artists empty_stats))
    with (count_dict l).
  change (fold_left (fun d k => count_key k d) ?l (tracks empty_stats))
    with (count_dict l).
  change (fold_left (fun d k => count_key k d) ?l
            (genre_counts empty_stats)) with (count_dict l).
  destruct (top_of_count_dict (map Artist (p :: plays)))
    as (top_artist & -> & Hma); [discriminate |].
  destruct (top_of_count_dict (map track_key (p :: plays)))
    as (top_track & -> & Hmt); [discriminate |].
  destruct (fold_aggregate_dates plays (aggregate_play empty_stats p))
    as [Hf Hl]; try (cbn; discriminate).
  change (fold_left aggregate_play plays (aggregate_play empty_stats p))
    with (fold_left aggregate_play (p :: plays) empty_stats) in Hf, Hl.
  destruct (first_play _) as [first |]; [| congruence].
  destruct (last_play _) as [last |]; [| congruence].
  destruct (counted_genres (p :: plays)) as [| g gs] eqn:Egs.
  - cbn. eexists. split; [reflexivity |]. cbn. auto.
  - pose proof (count_dict_nonempty (g :: gs)) as Hd.
    destruct (count_dict (g :: gs)) as [| e d] eqn:Ed;
      [exfalso; now apply Hd |].
    rewrite <- Ed.
    destruct (top_of_count_dict (g :: gs)) as (top_genre & -> & Hmg);
      [discriminate |].
    eexists. split; [reflexivity |]. cbn. auto.
Qed.

Lemma counted_genres_all (plays : list TrackPlay) :
  Forall (fun p => Genre p <> ""%string) plays ->
  counted_genres plays = map Genre plays.
Proof.
  unfold counted_genres.
  induction 1 as [| p plays Hp _ IH]; [reflexivity |].
  cbn [map filter]. rewrite IH.
  destruct (Genre p); [congruence | reflexivity].
Qed.

(** C6, as the code has it.  For every non-empty sequence of play events
    the summary's top artist is the mode of the artists and its top track
    the mode of the ["artist - title"] keys, ties going to the value met
    first.  Its top genre is the mode of the non-empty genres (a play with
    an empty genre is not counted) and the empty string when there is
    none; when every play has a genre it is the mode of all genres. *)
Theorem top_items_are_modes (now : datetime) (root : PlayHistory) :
  Plays root <> [] ->
  exists m,
    create_year_metadata_xml now root = Return (Some m) /\
    is_mode (map Artist (Plays root)) (Meta.TopArtist m) /\
    is_mode (map track_key (Plays root)) (Meta.TopTrack m) /\
    match counted_genres (Plays root) with
    | [] => Meta.TopGenre m = ""%string
    | gs => is_mode gs (Meta.TopGenre m)
    end /\
    (Forall (fun p => Genre p <> ""%string) (Plays root) ->
     is_mode (map Genre (Plays root)) (Meta.TopGenre m)).
Proof.
  intros Hne.
  destruct (summary_of_plays now root Hne) as (m & E & _ & Ha & Ht & Hg).
  exists m. repeat (split; [assumption |]).
  intros Hall. rewrite (counted_genres_all _ Hall) in Hg.
  destruct (Plays root); [congruence | exact Hg].
Qed.

(** The summary of the sample history. *)
Lemma top_items_are_modes_witness :
  Plays genreless_history <> [] /\
  exists m,
    create_year_metadata_xml 0 genreless_history = Return (Some m) /\
    is_mode (map Artist (Plays genreless_history)) (Meta.TopArtist m) /\
    is_mode (map track_key (Plays genreless_history)) (Meta.TopTrack m) /\
    match counted_genres (Plays genreless_history) with
    | [] => Meta.TopGenre m = ""%string
    | gs => is_mode gs (Meta.TopGenre m)
    end /\
    (Forall (fun p => Genre p <> ""%string) (Plays genreless_history) ->
     is_mode (map Genre (Plays genreless_history)) (Meta.TopGenre m)).
Proof.
  assert (H : Plays genreless_history <> []) by (cbn; discriminate).
  split; [exact H |].
  exact (top_items_are_modes 0 genreless_history H).
Defined.

(** C6 as stated fails for the genre: with genres ["", "", "Rock"] the
    most frequent genre value is the empty one, and the summary's top
    genre is "Rock". *)
Lemma top_genre_is_not_the_mode_of_all_genres :
  exists m,
    create_year_metadata_xml 0 genreless_history = Return (Some m) /\
    Meta.TopGenre m = "Rock"%string /\
    occurrences "" (map Genre (Plays genreless_history)) = 2%nat /\
    occurrences "Rock" (map Genre (Plays genreless_history)) = 1%nat /\
    ~ is_mode (map Genre (Plays genreless_history)) (Meta.TopGenre m).
Proof.
  eexists. split; [vm_compute; reflexivity |].
  split; [reflexivity |]. split; [reflexivity |]. split; [reflexivity |].
  intros [_ H]. specialize (H ""%string). cbn in H.
  destruct H as [H _]; [auto | lia].
Qed.

(** C7.  The summary of a play-history document with at least one play
    records, as [TotalPlays], the number of [TrackPlay] elements of the
    document. *)
Theorem total_plays_counts_elements (now : datetime) (root : PlayHistory) :
  Plays root <> [] ->
  exists m,
    create_year_metadata_xml now root = Return (Some m) /\
    Meta.TotalPlays m = Z.of_nat (List.length (Plays root)).
Proof.
  intros Hne.
  destruct (summary_of_plays now root Hne) as (m & E & Hn & _).
  now exists m.
Qed.

(** The sample history has three plays. *)
Lemma total_plays_counts_elements_witness :
  Plays genreless_history <> [] /\
  exists m,
    create_year_metadata_xml 0 genreless_history = Return (Some m) /\
    Meta.TotalPlays m = Z.of_nat (List.length (Plays genreless_history)).
Proof.
  assert (H : Plays genreless_history <> []) by (cbn; discriminate).
  split; [exact H |].
  exact (total_plays_counts_elements 0 genreless_history H).
Defined.

(** ** The files the script writes *)

Lemma main_files (total_plays : Z) (now now' : datetime) (o : oracle) :
  exists root pos,
    create_play_history_xml_for total_plays now o 0%N = Ok root pos /\
    map fst (fst (main_for total_plays now now' o))
    = match Plays root with
      | [] => [ "play_history.xml"; "play_history_backup.xml" ]
      | _ => [ "play_history.xml"; "year_metadata.xml";
               "play_history_backup.xml" ]
      end%string.
Proof.
  destruct (returns_create_play_history_xml total_plays now o 0%N)
    as (root & pos & E & _).
  exists root, pos. split; [exact E |].
  unfold main_for. rewrite E.
  destruct (Plays root) as [| p plays] eqn:Ep.
  - unfold create_year_metadata_xml. rewrite Ep. reflexivity.
  - destruct (summary_of_plays now' root) as (m & -> & _);
      [rewrite Ep; discriminate |].
    reflexivity.
Qed.

(** C8.  On an empty [Plays] element the aggregator returns [None], an
    absence and not an exception, and on a non-empty one it returns a
    summary; the script writes [year_metadata.xml] exactly when the
    generated history has a play.  With a target of 0 no play is generated
    and only the history and its backup are written. *)
Theorem empty_history_has_no_summary :
  (forall (now lu : datetime),
     create_year_metadata_xml now {| Plays := []; LastUpdated := lu |}
     = Return None) /\
  (forall (now lu : datetime) (p : TrackPlay) (plays : list TrackPlay),
     exists m,
       create_year_metadata_xml now
         {| Plays := p :: plays; LastUpdated := lu |} = Return (Some m)) /\
  (forall (total_plays : Z) (now now' : datetime) (o : oracle),
     exists root pos,
       create_play_history_xml_for total_plays now o 0%N = Ok root pos /\
       (In "year_metadata.xml"%string
           (map fst (fst (main_for total_plays now now' o)))
        <-> Plays root <> [])) /\
  (forall (now now' : datetime) (o : oracle),
     map fst (fst (main_for 0 now now' o))
     = [ "play_history.xml"; "play_history_backup.xml" ]%string).
Proof.
  split; [reflexivity |]. split; [| split].
  - intros now lu p plays.
    destruct (summary_of_plays now {| Plays := p :: plays;
                                      LastUpdated := lu |})
      as (m & E & _); [discriminate |].
    now exists m.
  - intros total_plays now now' o.
    destruct (main_files total_plays now now' o) as (root & pos & E & Ef).
    exists root, pos. split; [exact E |]. rewrite Ef.
    destruct (Plays root); cbn.
    + split; [intros [H | [H | []]]; discriminate | congruence].
    + split; [discriminate | auto].
  - intros now now' o.
    destruct (main_files 0 now now' o) as (root & pos & E & ->).
    destruct (returns_create_play_history_xml 0 now o 0%N)
      as (root' & pos' & E' & st & Ep & (Hlen & Hmax & _) & _).
    rewrite E in E'. injection E' as <- <-.
    rewrite Ep. destruct (plays_element st); [reflexivity |].
    cbn [List.length] in Hlen. lia.
Qed.

(** Every generated play has one of the genres of [GENRES], none of
    which is empty, so the summary of a generated history has the mode of
    all genres as its top genre. *)
Lemma GENRES_nonempty : forallb truthy GENRES = true.
Proof. reflexivity. Qed.

Lemma generated_top_genre (total_plays : Z) (now now' : datetime)
    (o : oracle) (pos : N) :
  exists root pos',
    create_play_history_xml_for total_plays now o pos = Ok root pos' /\
    (Plays root = [] \/
     exists m,
       create_year_metadata_xml now' root = Return (Some m) /\
       is_mode (map Genre (Plays root)) (Meta.TopGenre m)).
Proof.
  destruct (returns_create_play_history_xml total_plays now o pos)
    as (root & pos' & E & st & Ep & (_ & _ & _ & Hall & _) & _).
  exists root, pos'. split; [exact E |].
  destruct (Plays root) as [| p plays] eqn:Er; [now left | right].
  destruct (summary_of_plays now' root) as (m & Em & _ & _ & _ & Hg);
    [rewrite Er; discriminate |].
  exists m. split; [exact Em |].
  rewrite <- Er in *.
  rewrite counted_genres_all in Hg.
  - destruct (Plays root); [discriminate | exact Hg].
  - rewrite Ep. eapply Forall_impl; [| exact Hall]. cbv beta.
    intros q (_ & _ & _ & _ & _ & Hq) Hempty.
    pose proof (proj1 (forallb_forall _ _) GENRES_nonempty _ Hq) as Ht.
    rewrite Hempty in Ht. discriminate.
Qed.

(** ** The late-run correction (claim C5) *)

(** Whatever [base_probability] holds when an iteration starts, the
    iteration does the same: the variable is assigned before it is read. *)
Lemma walk_step_ignores_base_probability (total_plays : Z)
    (track_pool : list Track) (st : walk_state)
    (stored : option Float64.float) :
  walk_step total_plays track_pool
    {| plays_element := plays_element st;
       current_plays := current_plays st;
       current_date := current_date st;
       base_probability := stored |}
  = walk_step total_plays track_pool st.
Proof. reflexivity. Qed.

(** When the draw is not below the pattern's probability no play is
    emitted, in every state. *)
Lemma walk_step_skips (total_plays : Z) (track_pool : list Track)
    (st : walk_state) (o : oracle) (pos : N) :
  (Float64.of_draw (o pos mod 2 ^ 53)
     <? pattern_probability
          (snd (find_pattern (hour (current_date st))
                  generate_listening_patterns))
          (current_date st))%float = false ->
  exists st' pos',
    walk_step total_plays track_pool st o pos = Ok st' pos' /\
    plays_element st' = plays_element st /\
    current_plays st' = current_plays st.
Proof.
  intros Hu. unfold walk_step.
  destruct (find_pattern _ _) as [pattern_name pattern_info].
  cbn [snd] in Hu.
  cbv beta iota zeta delta [bind random random_bits draw ret].
  rewrite Hu.
  destruct (returns_randint 5 60 ltac:(lia) o (N.succ pos))
    as (adv & pos' & E & _).
  cbv beta iota zeta delta [bind random random_bits draw ret] in E |- *.
  cbn [current_date]. rewrite E.
  eexists _, _. split; [reflexivity |]. cbn. auto.
Qed.

(** When the draw is below the pattern's probability one play is
    emitted. *)
Lemma walk_step_emits (total_plays : Z) (track_pool : list Track)
    (st : walk_state) (o : oracle) (pos : N) :
  pool_ok track_pool ->
  (Float64.of_draw (o pos mod 2 ^ 53)
     <? pattern_probability
          (snd (find_pattern (hour (current_date st))
                  generate_listening_patterns))
          (current_date st))%float = true ->
  exists st' pos' p,
    walk_step total_plays track_pool st o pos = Ok st' pos' /\
    plays_element st' = plays_element st ++ [p] /\
    current_plays st' = current_plays st + 1.
Proof.
  intros Hpool Hu. unfold walk_step.
  destruct (find_pattern _ _) as [pattern_name pattern_info].
  cbn [snd] in Hu.
  set (st0 := {| plays_element := plays_element st;
                 current_plays := current_plays st;
                 current_date := current_date st;
                 base_probability := _ |}).
  destruct (returns_emit_play track_pool pattern_info st0 Hpool o
              (N.succ pos)) as (st1 & pos1 & E1 & _ & _ & p & _ & Ep & Ec).
  destruct (returns_randint 5 60 ltac:(lia) o pos1)
    as (adv & pos' & E & _).
  cbv beta iota zeta delta [bind random random_bits draw ret] in E |- *.
  rewrite Hu, E1, E.
  eexists _, _, p. split; [reflexivity |]. cbn. auto.
Qed.

Lemma hour_range (t : datetime) : 0 <= hour t < 24.
Proof. unfold hour. Z.div_mod_to_equations. lia. Qed.

(** The probability a tick compares its draw with is never 0.95. *)
Lemma pattern_probability_never_0_95 (t : datetime) :
  pattern_probability
    (snd (find_pattern (hour t) generate_listening_patterns)) t
  <> f0_95.
Proof.
  pose proof (hour_range t) as Hh.
  unfold pattern_probability.
  generalize dependent (hour t). intros h Hh.
  destruct (5 <=? weekday t).
  - pose (Q := fun h =>
      negb (SFeqb
        (Float64.min
           (match snd (find_pattern h generate_listening_patterns) with
            | Some p => f0_8 * freq_mult p
            | None => f0_8
            end * f1_2)%float f1_0) f0_95)).
    assert (HQ : Q h = true)
      by (apply (Zrange_forallb Q 0 24); [vm_compute; reflexivity | lia]).
    intros E. unfold Q in HQ. rewrite E in HQ. vm_compute in HQ.
    discriminate.
  - pose (Q := fun h =>
      negb (SFeqb
        (Float64.min
           (match snd (find_pattern h generate_listening_patterns) with
            | Some p => f0_8 * freq_mult p
            | None => f0_8
            end)%float f1_0) f0_95)).
    assert (HQ : Q h = true)
      by (apply (Zrange_forallb Q 0 24); [vm_compute; reflexivity | lia]).
    intros E. unfold Q in HQ. rewrite E in HQ. vm_compute in HQ.
    discriminate.
Qed.

(** C5 does not hold of the code.  The 0.95 that the safety check stores
    at the end of an iteration is overwritten by the assignment of 0.8
    that opens the next one: an iteration does the same whatever value is
    stored; it emits a play exactly when its draw is below the probability
    derived from the pattern; and that probability is never 0.95.
    At 09:00 on 10 December with no play emitted, an iteration leaves
    fewer than 30 days and fewer than 80% of the target, and stores 0.95;
    the next iteration draws about 0.9, below 0.95, at 10:00 in work hours
    (probability 0.64) and emits nothing. *)
Theorem late_run_probability_is_not_used :
  (forall total_plays track_pool st stored,
     walk_step total_plays track_pool
       {| plays_element := plays_element st;
          current_plays := current_plays st;
          current_date := current_date st;
          base_probability := stored |}
     = walk_step total_plays track_pool st) /\
  (forall total_plays track_pool st o pos,
     pool_ok track_pool ->
     exists st' pos',
       walk_step total_plays track_pool st o pos = Ok st' pos' /\
       (List.length (plays_element st')
          = S (List.length (plays_element st))
        <-> (Float64.of_draw (o pos mod 2 ^ 53)
               <? pattern_probability
                    (snd (find_pattern (hour (current_date st))
                            generate_listening_patterns))
                    (current_date st))%float = true)) /\
  (forall t,
     pattern_probability
       (snd (find_pattern (hour t) generate_listening_patterns)) t
     <> f0_95) /\
  exists st1 pos1 st2 pos2,
    walk_step TOTAL_PLAYS one_track_pool december_state oracle_0_9 0%N
      = Ok st1 pos1 /\
    delta_days end_date (current_date st1) < 30 /\
    (Float64.of_int (current_plays st1)
       <? Float64.of_int TOTAL_PLAYS * f0_8)%float = true /\
    base_probability st1 = Some f0_95 /\
    (Float64.of_draw (oracle_0_9 pos1 mod 2 ^ 53) <? f0_95)%float = true /\
    walk_step TOTAL_PLAYS one_track_pool st1 oracle_0_9 pos1 = Ok st2 pos2 /\
    plays_element st2 = [].
Proof.
  split; [exact walk_step_ignores_base_probability |].
  split; [| split; [exact pattern_probability_never_0_95 |]].
  - intros total_plays track_pool st o pos Hpool.
    destruct (Float64.ltb _ _) eqn:Hu.
    + destruct (walk_step_emits total_plays _ st o pos Hpool Hu)
        as (st' & pos' & p & E & Ep & _).
      exists st', pos'. split; [exact E |].
      rewrite Ep, length_app. cbn [List.length]. split; [auto | lia].
    + destruct (walk_step_skips total_plays track_pool st o pos Hu)
        as (st' & pos' & E & Ep & _).
      exists st', pos'. split; [exact E |].
      rewrite Ep. split; [lia | discriminate].
  - eexists _, _, _, _.
    split; [vm_compute; reflexivity |].
    repeat (split; [vm_compute; reflexivity |]).
    reflexivity.
Qed.

(** ** Draws as binary64 numbers *)

Lemma digits2_pos_bounds (m : positive) :
  2 ^ (Zpos (digits2_pos m) - 1) <= Zpos m < 2 ^ Zpos (digits2_pos m).
Proof.
  induction m as [m IH | m IH |]; cbn [digits2_pos].
  - rewrite Pos2Z.inj_succ.
    replace (Z.succ (Zpos (digits2_pos m)) - 1) with (Zpos (digits2_pos m))
      by lia.
    rewrite Z.pow_succ_r by lia.
    replace (Zpos (digits2_pos m)) with (Z.succ (Zpos (digits2_pos m) - 1))
      at 1 by lia.
    rewrite Z.pow_succ_r by lia. lia.
  - rewrite Pos2Z.inj_succ.
    replace (Z.succ (Zpos (digits2_pos m)) - 1) with (Zpos (digits2_pos m))
      by lia.
    rewrite Z.pow_succ_r by lia.
    replace (Zpos (digits2_pos m)) with (Z.succ (Zpos (digits2_pos m) - 1))
      at 1 by lia.
    rewrite Z.pow_succ_r by lia. lia.
  - cbn. lia.
Qed.

Lemma iter_xO_spec (m n : positive) :
  Zpos (Pos.iter xO m n) = Zpos m * 2 ^ Zpos n /\
  digits2_pos (Pos.iter xO m n) = (digits2_pos m + n)%positive.
Proof.
  induction n as [| n IH] using Pos.peano_ind.
  - cbn. split; [lia |]. now rewrite Pos.add_1_r.
  - rewrite Pos.iter_succ. destruct IH as [IH1 IH2].
    cbn [digits2_pos]. rewrite IH2. split.
    + rewrite Pos2Z.inj_xO, IH1, Pos2Z.inj_succ, Z.pow_succ_r by lia. lia.
    + lia.
Qed.

(** Rounding a 53-bit mantissa with an exponent in range changes nothing. *)
Lemma binary_round_aux_exact (mz : positive) (ez : Z) :
  Zpos (digits2_pos mz) = 53 -> -1074 <= ez <= 971 ->
  binary_round_aux 53 1024 false (Zpos mz) ez loc_Exact
  = S754_finite false mz ez.
Proof.
  intros Hd He.
  assert (Hs : shr_fexp 53 1024 (Zpos mz) ez loc_Exact
               = ({| shr_m := Zpos mz; shr_r := false; shr_s := false |}, ez)).
  { unfold shr_fexp, fexp, emin. cbn [Zdigits2]. rewrite Hd.
    replace (Z.max (53 + ez - 53) (3 - 1024 - 53) - ez) with 0 by lia.
    reflexivity. }
  unfold binary_round_aux. rewrite Hs.
  cbn [shr_m loc_of_shr_record round_nearest_even]. rewrite Hs.
  cbn [shr_m].
  destruct (Z.leb_spec ez (1024 - 53)); [reflexivity | lia].
Qed.

(** The canonical binary64 form of [k * 2^-53], [0 < k < 2^53]:
    a 53-bit mantissa. *)
Lemma of_draw_pos (m : positive) :
  Zpos m < 2 ^ 53 ->
  exists mz ez,
    Float64.of_draw (Zpos m) = S754_finite false mz ez /\
    ((Zpos m < 2 ^ 52 /\ ez < -53) \/
     (2 ^ 52 <= Zpos m /\ ez = -53 /\ mz = m)).
Proof.
  intros Hm.
  pose proof (digits2_pos_bounds m) as Hd.
  assert (Hd53 : Zpos (digits2_pos m) <= 53).
  { destruct (Z.le_gt_cases (Zpos (digits2_pos m)) 53) as [H | H];
      [exact H |].
    exfalso. assert (2 ^ 53 <= 2 ^ (Zpos (digits2_pos m) - 1))
      by (apply Z.pow_le_mono_r; lia). lia. }
  unfold Float64.of_draw, binary_normalize, binary_round,
    Float64.prec, Float64.emax.
  unfold fexp at 1. unfold emin.
  replace (Z.max (Zpos (digits2_pos m) + -53 - 53) (3 - 1024 - 53))
    with (Zpos (digits2_pos m) - 106) by lia.
  unfold shl_align.
  destruct (Zpos (digits2_pos m) - 106 - -53) as [| p | p] eqn:Ep; try lia.
  - exists m, (-53). split.
    + apply binary_round_aux_exact; lia.
    + right. split; [| auto].
      replace (Zpos (digits2_pos m)) with 53 in Hd by lia.
      change (2 ^ (53 - 1)) with (2 ^ 52) in Hd. lia.
  - destruct (iter_xO_spec m p) as [Hv Hdig].
    exists (Pos.iter xO m p), (Zpos (digits2_pos m) - 106). split.
    + apply binary_round_aux_exact; [rewrite Hdig |]; lia.
    + left. split; [| lia].
      assert (2 ^ Zpos (digits2_pos m) <= 2 ^ 52)
        by (apply Z.pow_le_mono_r; lia).
      lia.
Qed.

(** Comparing a draw with a 53-bit constant of exponent -53 is comparing
    the numerators. *)
Lemma draw_ltb (k : Z) (a : positive) :
  0 <= k < 2 ^ 53 -> 2 ^ 52 <= Zpos a ->
  (Float64.of_draw k <? S754_finite false a (-53))%float = (k <? Zpos a).
Proof.
  intros Hk Ha. destruct k as [| m | m]; [reflexivity | | lia].
  destruct (of_draw_pos m (proj2 Hk)) as (mz & ez & -> & H).
  unfold Float64.ltb, SFltb, SFcompare.
  destruct H as [[Hm He] | (Hm & -> & ->)].
  - destruct (Z.compare_spec ez (-53)); lia.
  - cbn [Z.compare Pos.compare]. unfold Z.ltb. cbn [Z.compare].
    unfold Pos.compare. now destruct (Pos.compare_cont Eq m a).
Qed.

Lemma f0_7_bits : f0_7 = S754_finite false 6305039478318694 (-53).
Proof. vm_compute. reflexivity. Qed.

Lemma f0_9_bits : f0_9 = S754_finite false 8106479329266893 (-53).
Proof. vm_compute. reflexivity. Qed.

Lemma select_tier_draws (o : oracle) (pos : N) :
  exists pos',
    select_tier o pos
    = Ok (tier_of_draws (o pos mod 2 ^ 53) (o (N.succ pos) mod 2 ^ 53)) pos'.
Proof.
  cbv beta iota zeta delta [select_tier bind random random_bits draw ret].
  rewrite f0_7_bits, f0_9_bits. unfold tier_of_draws.
  rewrite draw_ltb by (try (apply Z.mod_pos_bound; reflexivity);
                       vm_compute; discriminate).
  destruct (_ <? 6305039478318694); [eexists; reflexivity |].
  cbv beta.
  rewrite draw_ltb by (try (apply Z.mod_pos_bound; reflexivity);
                       vm_compute; discriminate).
  destruct (_ <? 8106479329266893); eexists; reflexivity.
Qed.

Lemma takes_draws (t : tier) (k1 k2 : Z) :
  0 <= k1 < 2 ^ 53 -> 0 <= k2 < 2 ^ 53 ->
  takes t k1 k2 = tier_eqb t (tier_of_draws k1 k2).
Proof.
  intros H1 H2. unfold takes.
  destruct (select_tier_draws (two_draws k1 k2) 0%N) as (pos' & ->).
  unfold two_draws. cbn [N.eqb N.succ].
  now rewrite !Z.mod_small by assumption.
Qed.

(** ** Counting draws *)

Lemma Zrange_S (lo : Z) (n : nat) :
  Zrange lo (S n) = Zrange lo n ++ [lo + Z.of_nat n].
Proof. unfold Zrange. now rewrite seq_S, map_app. Qed.

Lemma Zrange_In (lo : Z) (n : nat) (k : Z) :
  In k (Zrange lo n) -> lo <= k < lo + Z.of_nat n.
Proof.
  unfold Zrange. intros H. apply in_map_iff in H.
  destruct H as (i & <- & Hi). apply in_seq in Hi. lia.
Qed.

Lemma length_Zrange (lo : Z) (n : nat) : List.length (Zrange lo n) = n.
Proof. unfold Zrange. now rewrite length_map, length_seq. Qed.

Lemma count_below (a : Z) (n : nat) :
  0 <= a <= Z.of_nat n ->
  Z.of_nat (List.length (filter (fun k => k <? a) (Zrange 0 n))) = a.
Proof.
  induction n as [| n IH]; intros Ha.
  - cbn in *. lia.
  - rewrite Zrange_S, filter_app, length_app. cbn [filter].
    destruct (Z.ltb_spec (0 + Z.of_nat n) a) as [Hlt | Hge].
    + assert (E : filter (fun k => k <? a) (Zrange 0 n) = Zrange 0 n).
      { apply forallb_filter_id. apply forallb_forall.
        intros k Hk. apply Zrange_In in Hk. apply Z.ltb_lt. lia. }
      rewrite E, length_Zrange. cbn [List.length]. lia.
    + cbn [List.length]. rewrite Nat.add_0_r. apply IH. lia.
Qed.

Lemma count_not_below (a : Z) (n : nat) :
  0 <= a <= Z.of_nat n ->
  Z.of_nat (List.length (filter (fun k => negb (k <? a)) (Zrange 0 n)))
  = Z.of_nat n - a.
Proof.
  intros Ha.
  pose proof (filter_length (fun k => k <? a) (Zrange 0 n)) as H.
  rewrite length_Zrange in H.
  pose proof (count_below a n Ha). lia.
Qed.

Lemma count_rectangle {A B} (f : A -> bool) (g : B -> bool)
    (l1 : list A) (l2 : list B) :
  List.length (filter (fun p => f (fst p) && g (snd p)) (list_prod l1 l2))
  = (List.length (filter f l1) * List.length (filter g l2))%nat.
Proof.
  induction l1 as [| x l1 IH]; [reflexivity |].
  cbn [list_prod filter]. rewrite filter_app, length_app, IH.
  assert (E : List.length (filter (fun p => f (fst p) && g (snd p))
                             (map (fun y => (x, y)) l2))
              = if f x then List.length (filter g l2) else O).
  { clear IH. induction l2 as [| y l2 IH2]; cbn [map filter fst snd].
    - now destruct (f x).
    - destruct (f x) eqn:Ef; cbn [andb] in *.
      + destruct (g y); cbn [List.length]; now rewrite IH2.
      + exact IH2. }
  rewrite E. destruct (f x); cbn [List.length]; lia.
Qed.

(** The number of pairs of draws that select each branch, at any
    resolution [n] up to [2^53] that holds both thresholds. *)
Lemma tier_count_rectangles (n : nat) :
  8106479329266893 <= Z.of_nat n <= 2 ^ 53 ->
  tier_count n HighTier = 6305039478318694 * Z.of_nat n /\
  tier_count n MidTier
    = (Z.of_nat n - 6305039478318694) * 8106479329266893 /\
  tier_count n LowTier
    = (Z.of_nat n - 6305039478318694) * (Z.of_nat n - 8106479329266893).
Proof.
  intros Hn. unfold tier_count, draw_pairs.
  assert (Hin : forall p, In p (list_prod (Zrange 0 n) (Zrange 0 n)) ->
                  0 <= fst p < 2 ^ 53 /\ 0 <= snd p < 2 ^ 53).
  { intros [k1 k2] Hp. apply in_prod_iff in Hp. destruct Hp as [H1 H2].
    apply Zrange_In in H1, H2. cbn [fst snd]. lia. }
  assert (Hall : Z.of_nat (List.length (filter (fun _ : Z => true)
                                          (Zrange 0 n))) = Z.of_nat n).
  { rewrite forallb_filter_id by (apply forallb_forall; reflexivity).
    now rewrite length_Zrange. }
  pose proof (count_below 6305039478318694 n ltac:(lia)) as HA.
  pose proof (count_not_below 6305039478318694 n ltac:(lia)) as HA'.
  pose proof (count_below 8106479329266893 n ltac:(lia)) as HB.
  pose proof (count_not_below 8106479329266893 n ltac:(lia)) as HB'.
  assert (Hext : forall (t : tier) (f g : Z -> bool),
            (forall k1 k2, tier_eqb t (tier_of_draws k1 k2) = f k1 && g k2) ->
            Z.of_nat (List.length
              (filter (fun p => takes t (fst p) (snd p))
                 (list_prod (Zrange 0 n) (Zrange 0 n))))
            = Z.of_nat (List.length (filter f (Zrange 0 n)))
              * Z.of_nat (List.length (filter g (Zrange 0 n)))).
  { intros t f g Hfg.
    rewrite <- Nat2Z.inj_mul, <- count_rectangle. do 2 f_equal.
    apply filter_ext_in. intros p Hp. destruct (Hin p Hp) as [H1 H2].
    rewrite takes_draws by assumption. apply Hfg. }
  split; [| split].
  - rewrite (Hext HighTier (fun k => k <? 6305039478318694)
               (fun _ => true)), HA, Hall; [reflexivity |].
    intros k1 k2. unfold tier_of_draws.
    destruct (k1 <? _); [reflexivity |]. now destruct (k2 <? _).
  - rewrite (Hext MidTier (fun k => negb (k <? 6305039478318694))
               (fun k => k <? 8106479329266893)), HA', HB; [reflexivity |].
    intros k1 k2. unfold tier_of_draws.
    destruct (k1 <? _); [reflexivity |]. now destruct (k2 <? _).
  - rewrite (Hext LowTier (fun k => negb (k <? 6305039478318694))
               (fun k => negb (k <? 8106479329266893))), HA', HB';
      [reflexivity |].
    intros k1 k2. unfold tier_of_draws.
    destruct (k1 <? _); [reflexivity |]. now destruct (k2 <? _).
Qed.

Lemma resolution_value : Z.of_nat resolution = 2 ^ 53.
Proof. unfold resolution. apply Z2Nat.id. apply Z.pow_nonneg. lia. Qed.

(** C4 does not hold of the code.  The second comparison draws a fresh
    random number instead of reusing the first, so the branches are
    selected by two independent draws: a first draw of almost 1 followed
    by a second draw of 0 selects the [50%,80%] branch.  Of the
    [2^53 * 2^53] equally likely pairs of draws, the [80%,100%] branch
    takes those whose first draw is below 0.7; the [50%,80%] branch those
    whose first draw is not and whose second is below 0.9, that is 27% and
    not 20%; the [30s,50%] branch the rest, 3% and not 10%. *)
Theorem tier_probabilities :
  (forall track_duration_ms o pos,
     generate_realistic_play_duration track_duration_ms o pos
     = (t <- select_tier ;;
        sample_in_tier t (track_duration_ms / 1000)) o pos) /\
  takes MidTier (2 ^ 53 - 1) 0 = true /\
  tier_count resolution HighTier = 6305039478318694 * 2 ^ 53 /\
  tier_count resolution MidTier
    = (2 ^ 53 - 6305039478318694) * 8106479329266893 /\
  tier_count resolution LowTier
    = (2 ^ 53 - 6305039478318694) * (2 ^ 53 - 8106479329266893) /\
  (6999 * (2 ^ 53 * 2 ^ 53) < 10000 * tier_count resolution HighTier
     < 7001 * (2 ^ 53 * 2 ^ 53)) /\
  (2699 * (2 ^ 53 * 2 ^ 53) < 10000 * tier_count resolution MidTier
     < 2701 * (2 ^ 53 * 2 ^ 53)) /\
  (299 * (2 ^ 53 * 2 ^ 53) < 10000 * tier_count resolution LowTier
     < 301 * (2 ^ 53 * 2 ^ 53)).
Proof.
  split; [exact sampler_factors |].
  split; [vm_compute; reflexivity |].
  pose proof resolution_value as HR.
  destruct (tier_count_rectangles resolution) as (-> & -> & ->).
  { rewrite HR. split; [discriminate | reflexivity]. }
  rewrite HR. clear HR.
  repeat split; reflexivity.
Qed.


(** * Further properties *)

(** ** Computations that raise *)




(** ** The title generator *)


Ltac draw_word_on o :=
  eapply returns_on_bind;
  [ refine (returns_choice _ _ o); discriminate | intros ? _ ].


Lemma returns_nonempty_title (artist album : string) :
  has_first_word artist = true -> has_first_word album = true ->
  returns (generate_track_title artist album)
    (fun title => title <> ""%string).
Proof.
  intros Ha Hb o. unfold generate_track_title.
  do 13 draw_word_on o.
  eapply returns_on_bind;
    [exact (returns_first_word_or_self _ Ha o) | intros w11 _].
  draw_word_on o.
  eapply returns_on_bind;
    [exact (returns_first_word_or_self _ Hb o) | intros w12 _].
  draw_word_on o.
  eapply returns_on_weaken;
    [refine (returns_choice _ _ o); discriminate |].
  cbv beta. intros t Ht.
  repeat (destruct Ht as [<- | Ht];
          [try discriminate;
           match goal with
           | |- (?x ++ _)%string <> _ => destruct x; discriminate
           end |]).
  destruct Ht.
Qed.





(** ** The pattern scan *)

(** X3.  The scan returns the first window of the table that holds the hour,
    with its name, and [("general", None)] when no window does. *)
Theorem find_pattern_first_match (hour : Z)
    (items : list (string * pattern)) :
  match find_pattern hour items with
  | (name, Some p) =>
      exists before after,
        items = before ++ (name, p) :: after /\
        window_holds p hour = true /\
        Forall (fun it => window_holds (snd it) hour = false) before
  | (name, None) =>
      name = "general"%string /\
      Forall (fun it => window_holds (snd it) hour = false) items
  end.
Proof.
  induction items as [| [name p] rest IH].
  - split; [reflexivity | constructor].
  - assert (E : find_pattern hour ((name, p) :: rest)
                = if window_holds p hour then (name, Some p)
                  else find_pattern hour rest).
    { cbn [find_pattern]. unfold window_holds.
      destruct (start_hour p <=? end_hour p);
        [destruct ((start_hour p <=? hour) && (hour <? end_hour p))
        | destruct ((start_hour p <=? hour) || (hour <? end_hour p))];
        reflexivity. }
    rewrite E. clear E.
    destruct (window_holds p hour) eqn:Hw.
    + exists [], rest. repeat split; [exact Hw | constructor].
    + destruct (find_pattern hour rest) as [name' [p' |]].
      * destruct IH as (before & after & -> & Hp & Hb).
        exists ((name, p) :: before), after.
        repeat split; [exact Hp | now constructor].
      * destruct IH as [-> Hall]. split; [reflexivity | now constructor].
Qed.

(** ** The probability of a play *)

(** A property of the probability that holds at each of the 24 hours, on
    a weekday and at the weekend, holds at every clock value. *)
Lemma probability_by_hour (t : datetime) (Q : Float64.float -> bool) :
  forallb (fun h =>
    Q (Float64.min
         (match snd (find_pattern h generate_listening_patterns) with
          | Some p => f0_8 * freq_mult p
          | None => f0_8
          end * f1_2)%float f1_0)
    && Q (Float64.min
            (match snd (find_pattern h generate_listening_patterns) with
             | Some p => f0_8 * freq_mult p
             | None => f0_8
             end)%float f1_0)) (Zrange 0 24) = true ->
  Q (probability_at t) = true.
Proof.
  intros H.
  pose proof (Zrange_forallb _ 0 24 H (hour t) (hour_range t)) as Hh.
  cbv beta in Hh. apply andb_true_iff in Hh.
  unfold probability_at, window_at, pattern_probability.
  destruct (5 <=? weekday t); tauto.
Qed.

(** X4.  At every clock value the probability of a play lies between
    [0.8 * 0.7] and [1.0]: the clamp keeps it at 1.0 at most, and no
    window lowers it under the late-night rate of a weekday. *)
Theorem probability_in_range (t : datetime) :
  SFleb (f0_8 * f0_7)%float (probability_at t) = true /\
  SFleb (probability_at t) f1_0 = true.
Proof.
  split.
  - apply (probability_by_hour t (fun p => SFleb (f0_8 * f0_7)%float p)).
    vm_compute. reflexivity.
  - apply (probability_by_hour t (fun p => SFleb p f1_0)).
    vm_compute. reflexivity.
Qed.

(** Every draw of [random.random()] is below 1.0. *)
Lemma draw_lt_one (k : Z) :
  0 <= k < 2 ^ 53 -> (Float64.of_draw k <? f1_0)%float = true.
Proof.
  intros Hk.
  assert (E : f1_0 = S754_finite false 4503599627370496 (-52))
    by (vm_compute; reflexivity).
  rewrite E. destruct k as [| m | m]; [reflexivity | | lia].
  destruct (of_draw_pos m (proj2 Hk)) as (mz & ez & -> & H).
  unfold Float64.ltb, SFltb, SFcompare.
  destruct (Z.compare_spec ez (-52)); [lia | reflexivity | lia].
Qed.

Lemma hour_of_first_day (t : datetime) (h : Z) :
  0 <= h < 24 ->
  start_date + h * 3600 <= t < start_date + (h + 1) * 3600 ->
  hour t = h.
Proof.
  intros Hh Ht.
  assert (E : start_date = 738886 * 86400) by (vm_compute; reflexivity).
  rewrite E in Ht. unfold hour. Z.div_mod_to_equations. lia.
Qed.

(** Between 22:00 and midnight a play is certain. *)
Lemma probability_at_22 (t : datetime) :
  hour t = 22 -> probability_at t = f1_0.
Proof.
  intros Hh. unfold probability_at, window_at, pattern_probability.
  rewrite Hh. destruct (5 <=? weekday t); vm_compute; reflexivity.
Qed.

(** ** The sampler on tracks of any length up to an hour *)

Lemma int_scaled_wide (s : Z) :
  0 <= s <= 3600 ->
  Float64.to_int (Float64.of_int s * f0_8)%float = Some (4 * s / 5) /\
  Float64.to_int (Float64.of_int s * f0_5)%float = Some (s / 2).
Proof.
  intros Hs.
  pose (P := fun s =>
    match Float64.to_int (Float64.of_int s * f0_8)%float,
          Float64.to_int (Float64.of_int s * f0_5)%float with
    | Some v, Some w => (v =? 4 * s / 5) && (w =? s / 2)
    | _, _ => false
    end).
  assert (HP : P s = true).
  { apply (Zrange_forallb P 0 3601); [vm_compute; reflexivity | lia]. }
  unfold P in HP.
  destruct (Float64.to_int (_ * f0_8)%float) as [v |]; [| discriminate].
  destruct (Float64.to_int (_ * f0_5)%float) as [w |]; [| discriminate].
  apply andb_true_iff in HP. destruct HP as [Hv Hw].
  apply Z.eqb_eq in Hv, Hw. now subst.
Qed.

Lemma randint_empty (a b : Z) (o : oracle) (pos : N) :
  b < a -> randint a b o pos = Raise ValueError.
Proof.
  intros H. unfold randint.
  destruct (Z.leb_spec a b); [lia | reflexivity].
Qed.

(** What a branch draws for a track of [s] seconds, [s] up to an hour:
    the low branch needs [s >= 60]. *)
Lemma sample_in_tier_wide (t : tier) (s : Z) (o : oracle) (pos : N) :
  0 <= s <= 3600 ->
  match t with
  | LowTier =>
      if s <? 60 then sample_in_tier t s o pos = Raise ValueError
      else exists d pos', sample_in_tier t s o pos = Ok d pos' /\
                          tier_interval t s d
  | _ => exists d pos', sample_in_tier t s o pos = Ok d pos' /\
                        tier_interval t s d
  end.
Proof.
  intros Hs. destruct (int_scaled_wide s Hs) as [H8 H5].
  unfold sample_in_tier.
  rewrite (int_of_to_int _ _ H8), (int_of_to_int _ _ H5).
  cbv beta iota zeta delta [bind ret].
  destruct t; cbn [tier_interval].
  - apply returns_randint. Z.div_mod_to_equations; lia.
  - apply returns_randint. Z.div_mod_to_equations; lia.
  - destruct (Z.ltb_spec s 60).
    + apply randint_empty. Z.div_mod_to_equations; lia.
    + apply returns_randint. Z.div_mod_to_equations; lia.
Qed.

(** X5.  On a track shorter than 60 s the sampler raises [ValueError] when its
    draws select the low branch, whose range [30 .. s // 2] is empty; in
    the other two branches it returns a value of the branch's interval. *)
Theorem sampler_on_short_track (track_duration_ms : Z) (o : oracle)
    (pos : N) :
  0 <= track_duration_ms < 60000 ->
  exists t pos1,
    select_tier o pos = Ok t pos1 /\
    match t with
    | LowTier =>
        generate_realistic_play_duration track_duration_ms o pos
        = Raise ValueError
    | _ =>
        exists d pos2,
          generate_realistic_play_duration track_duration_ms o pos
          = Ok d pos2 /\
          tier_interval t (track_duration_ms / 1000) d
    end.
Proof.
  intros Hms.
  assert (Hs : 0 <= track_duration_ms / 1000 < 60)
    by (Z.div_mod_to_equations; lia).
  destruct (returns_select_tier o pos) as (t & pos1 & Et & _).
  exists t, pos1. split; [exact Et |].
  rewrite sampler_factors. unfold bind. rewrite Et.
  pose proof (sample_in_tier_wide t (track_duration_ms / 1000) o pos1
                ltac:(lia)) as H.
  destruct t; try exact H.
  destruct (Z.ltb_spec (track_duration_ms / 1000) 60); [exact H | lia].
Qed.

Lemma sampler_on_short_track_witness :
  0 <= 50000 < 60000 /\
  exists t pos1,
    select_tier (fun _ => 2 ^ 53 - 1) 0%N = Ok t pos1 /\
    match t with
    | LowTier =>
        generate_realistic_play_duration 50000 (fun _ => 2 ^ 53 - 1) 0%N
        = Raise ValueError
    | _ =>
        exists d pos2,
          generate_realistic_play_duration 50000 (fun _ => 2 ^ 53 - 1) 0%N
          = Ok d pos2 /\
          tier_interval t (50000 / 1000) d
    end.
Proof.
  split; [lia |].
  apply (sampler_on_short_track 50000 (fun _ => 2 ^ 53 - 1) 0%N). lia.
Defined.

(** X6.  From 60 s up to an hour of nominal duration the sampler never raises:
    it returns a value of the interval of the branch its draws select,
    hence between 30 s and the track's length. *)
Theorem sampler_from_one_minute (track_duration_ms : Z) (o : oracle)
    (pos : N) :
  60000 <= track_duration_ms <= 3600000 ->
  exists t pos1 d pos2,
    select_tier o pos = Ok t pos1 /\
    generate_realistic_play_duration track_duration_ms o pos = Ok d pos2 /\
    tier_interval t (track_duration_ms / 1000) d /\
    30 <= d <= track_duration_ms / 1000.
Proof.
  intros Hms.
  assert (Hs : 60 <= track_duration_ms / 1000 <= 3600)
    by (Z.div_mod_to_equations; lia).
  destruct (returns_select_tier o pos) as (t & pos1 & Et & _).
  pose proof (sample_in_tier_wide t (track_duration_ms / 1000) o pos1
                ltac:(lia)) as H.
  assert (H' : exists d pos2,
             sample_in_tier t (track_duration_ms / 1000) o pos1 = Ok d pos2
             /\ tier_interval t (track_duration_ms / 1000) d).
  { destruct t; try exact H.
    destruct (Z.ltb_spec (track_duration_ms / 1000) 60); [lia | exact H]. }
  destruct H' as (d & pos2 & Ed & Hd).
  exists t, pos1, d, pos2. split; [exact Et |].
  rewrite sampler_factors. unfold bind. rewrite Et.
  split; [exact Ed |]. split; [exact Hd |].
  destruct t; cbn [tier_interval] in Hd; Z.div_mod_to_equations; lia.
Qed.

Lemma sampler_from_one_minute_witness :
  60000 <= 61000 <= 3600000 /\
  exists t pos1 d pos2,
    select_tier (fun _ => 2 ^ 53 - 1) 0%N = Ok t pos1 /\
    generate_realistic_play_duration 61000 (fun _ => 2 ^ 53 - 1) 0%N
      = Ok d pos2 /\
    tier_interval t (61000 / 1000) d /\
    30 <= d <= 61000 / 1000.
Proof.
  split; [lia |].
  apply (sampler_from_one_minute 61000 (fun _ => 2 ^ 53 - 1) 0%N). lia.
Defined.

(** ** The choice of a track *)

Lemma choose_track_cases (track_pool : list Track)
    (pattern_info : option pattern) (o : oracle) :
  track_pool <> [] ->
  returns_on o (choose_track track_pool pattern_info)
    (fun t => In t track_pool /\
       forall pat, pattern_info = Some pat ->
         pool_has_preferred track_pool pat ->
         str_in (genre t) (genres pat) = true).
Proof.
  intros Hne.
  assert (Hany : forall pat, ~ pool_has_preferred track_pool pat ->
            returns_on o (choice track_pool)
              (fun t => In t track_pool /\
                 forall pat', Some pat = Some pat' ->
                   pool_has_preferred track_pool pat' ->
                   str_in (genre t) (genres pat') = true)).
  { intros pat Hno.
    eapply returns_on_weaken; [exact (returns_choice _ Hne o) |].
    cbv beta. intros t Ht. split; [exact Ht |].
    intros pat' [= <-] Hyes. contradiction. }
  unfold choose_track. destruct pattern_info as [p |].
  - destruct (genres p) as [| g gs] eqn:Eg.
    + apply Hany. intros (t' & _ & Ht'). rewrite Eg in Ht'. discriminate.
    + rewrite <- Eg.
      destruct (filter _ track_pool) as [| t0 l0] eqn:Ef.
      * apply Hany. intros (t' & Hin & Ht').
        assert (Hf : In t' (filter (fun t => str_in (genre t) (genres p))
                              track_pool))
          by (apply filter_In; auto).
        rewrite Ef in Hf. exact Hf.
      * eapply returns_on_weaken;
          [refine (returns_choice _ _ o); discriminate |].
        cbv beta. intros t Ht. rewrite <- Ef in Ht.
        apply filter_In in Ht. destruct Ht as [Hin Hg].
        split; [exact Hin |]. now intros pat [= <-] _.
  - eapply returns_on_weaken; [exact (returns_choice _ Hne o) |].
    cbv beta. intros t Ht. split; [exact Ht | discriminate].
Qed.

(** X7.  The track of a play is drawn from the pool, and from the tracks whose
    genre the window prefers whenever the pool has one; on an empty pool
    the choice raises [IndexError]. *)
Theorem choose_track_prefers_genres (track_pool : list Track)
    (pattern_info : option pattern) (o : oracle) (pos : N) :
  match track_pool with
  | [] => choose_track track_pool pattern_info o pos = Raise IndexError
  | _ =>
      exists t pos',
        choose_track track_pool pattern_info o pos = Ok t pos' /\
        In t track_pool /\
        forall pat, pattern_info = Some pat ->
          pool_has_preferred track_pool pat ->
          str_in (genre t) (genres pat) = true
  end.
Proof.
  destruct track_pool as [| t0 l0].
  - unfold choose_track. destruct pattern_info as [p |]; [| reflexivity].
    now destruct (genres p).
  - exact (choose_track_cases (t0 :: l0) pattern_info o
             ltac:(discriminate) pos).
Qed.

(** ** The track pool, in full *)

Lemma has_first_word_of_table (l : list string) (s : string) :
  forallb has_first_word l = true -> In s l -> has_first_word s = true.
Proof. intros H. now apply forallb_forall. Qed.

Lemma returns_make_track_wf : returns make_track track_wf.
Proof.
  unfold make_track.
  eapply returns_bind; [apply (returns_choice ARTISTS); discriminate |].
  intros artist Ha.
  eapply returns_bind; [apply (returns_choice ALBUMS); discriminate |].
  intros album Hb.
  eapply returns_bind.
  { apply returns_nonempty_title.
    - exact (has_first_word_of_table _ _ ARTISTS_have_first_word Ha).
    - exact (has_first_word_of_table _ _ ALBUMS_have_first_word Hb). }
  intros title Ht.
  eapply returns_bind; [apply (returns_choice GENRES); discriminate |].
  intros genre Hg.
  eapply returns_bind; [apply (returns_randint 1960 2024); lia |].
  intros year Hy.
  eapply returns_bind; [apply (returns_randint 120000 360000); lia |].
  intros duration Hd.
  apply returns_ret. unfold track_wf. cbn. auto 10.
Qed.

Lemma returns_build_track_pool_wf (n : nat) (track_pool : list Track) :
  Forall track_wf track_pool ->
  returns (build_track_pool n track_pool)
    (fun l => Forall track_wf l /\
              List.length l = (List.length track_pool + n)%nat).
Proof.
  revert track_pool. induction n as [| n IH]; intros track_pool Hp; cbn.
  - apply returns_ret. split; [exact Hp | lia].
  - eapply returns_bind; [exact returns_make_track_wf |].
    intros t Ht.
    eapply returns_weaken.
    + apply IH. apply Forall_app. split; [exact Hp | now constructor].
    + cbv beta. intros l [Hl Hlen]. split; [exact Hl |].
      rewrite Hlen, length_app. cbn. lia.
Qed.

(** X8.  The pool has 500 tracks, each with an artist, an album and a genre of
    the tables, a non-empty title, a release year from 1960 to 2024 and a
    duration from 2 to 6 minutes; building it never raises. *)
Theorem track_pool_is_well_formed (o : oracle) (pos : N) :
  exists track_pool pos',
    build_track_pool 500 [] o pos = Ok track_pool pos' /\
    List.length track_pool = 500%nat /\
    Forall (fun t =>
      In (artist t) ARTISTS /\ In (album t) ALBUMS /\
      title t <> ""%string /\ In (genre t) GENRES /\
      1960 <= year t <= 2024 /\ 120000 <= duration t <= 360000)
      track_pool.
Proof.
  destruct (returns_build_track_pool_wf 500 [] ltac:(constructor) o pos)
    as (l & pos' & E & Hl & Hlen).
  exists l, pos'. split; [exact E |]. split; [exact Hlen | exact Hl].
Qed.

(** ** One tick, in full *)

Lemma returns_sampler_30 (track_duration_ms : Z) :
  120000 <= track_duration_ms <= 360000 ->
  returns (generate_realistic_play_duration track_duration_ms)
    (fun d => 30 <= d <= track_duration_ms / 1000).
Proof.
  intros Hms o pos.
  destruct (sampler_in_tier_interval _ o pos Hms)
    as (t & pos1 & d & pos2 & _ & Ed & Hd).
  exists d, pos2. split; [exact Ed |].
  apply tier_interval_bounds in Hd; [exact Hd |].
  Z.div_mod_to_equations; lia.
Qed.

Lemma emit_play_cases (track_pool : list Track)
    (pattern_info : option pattern) (st : walk_state) (o : oracle) :
  track_pool <> [] -> Forall track_wf track_pool ->
  returns_on o (emit_play track_pool pattern_info st)
    (fun st' =>
       current_date st' = current_date st /\
       exists p,
         plays_element st' = plays_element st ++ [p] /\
         current_plays st' = current_plays st + 1 /\
         PlayedAt p = current_date st /\
         (pattern_info = window_at (PlayedAt p) ->
          play_of track_pool p)).
Proof.
  intros Hne Hwf. unfold emit_play.
  eapply returns_on_bind; [exact (choose_track_cases _ _ o Hne) |].
  cbv beta. intros track [Hin Hpref].
  pose proof (proj1 (Forall_forall _ _) Hwf track Hin)
    as (_ & _ & _ & _ & _ & Hdur).
  eapply returns_on_bind; [exact (returns_sampler_30 _ Hdur o) |].
  cbv beta. intros play_duration Hplayed.
  eapply returns_on_bind; [apply (returns_randint 1 15); lia |].
  cbv beta. intros track_no Hno.
  eapply returns_on_bind;
    [refine (returns_choice playlists _ o); discriminate |].
  cbv beta. intros playlist Hpl.
  eapply returns_on_bind;
    [refine (returns_choice listening_modes _ o); discriminate |].
  cbv beta. intros listening_mode Hlm.
  apply returns_on_ret. cbn [current_date plays_element current_plays].
  split; [reflexivity |].
  eexists. split; [reflexivity |]. split; [reflexivity |].
  split; [reflexivity |].
  cbn [PlayedAt]. intros Hw. exists track. unfold play_of_track.
  cbn [FileUrl Title Artist Album AlbumArtist Genre Year Duration
       PlayedAt PlayDuration PlaylistName ListeningMode].
  repeat (split; [first [assumption | reflexivity
                         | exists track_no; split;
                           [assumption | reflexivity]] |]).
  intros pat Hpat. apply Hpref. now rewrite Hw.
Qed.

(** What one iteration does, in every state: it emits one play exactly
    when its draw is below the probability of the clock value, and
    advances the clock by 5 to 60 minutes. *)
Lemma walk_step_cases (total_plays : Z) (track_pool : list Track)
    (st : walk_state) (o : oracle) (pos : N) :
  track_pool <> [] -> Forall track_wf track_pool ->
  exists st' pos' advance_minutes,
    walk_step total_plays track_pool st o pos = Ok st' pos' /\
    5 <= advance_minutes <= 60 /\
    current_date st' = current_date st + advance_minutes * 60 /\
    if (Float64.of_draw (o pos mod 2 ^ 53)
          <? probability_at (current_date st))%float
    then exists p,
           PlayedAt p = current_date st /\ play_of track_pool p /\
           plays_element st' = plays_element st ++ [p] /\
           current_plays st' = current_plays st + 1
    else plays_element st' = plays_element st /\
         current_plays st' = current_plays st.
Proof.
  intros Hne Hwf. unfold probability_at, window_at, walk_step.
  destruct (find_pattern _ _) as [pattern_name pattern_info] eqn:Efind.
  cbn [snd].
  set (st0 := {| plays_element := plays_element st;
                 current_plays := current_plays st;
                 current_date := current_date st;
                 base_probability := _ |}).
  cbv beta iota zeta delta [bind random random_bits draw ret].
  destruct (Float64.ltb _ _).
  - destruct (emit_play_cases track_pool pattern_info st0 o Hne Hwf
                (N.succ pos))
      as (st1 & pos1 & E1 & Hd & p & Ep & Ec & Hat & Hp).
    destruct (returns_randint 5 60 ltac:(lia) o pos1)
      as (adv & pos' & E & Hadv).
    cbv beta iota zeta delta [bind random random_bits draw ret] in E.
    rewrite E1, E.
    eexists _, _, adv. split; [reflexivity |].
    split; [exact Hadv |].
    cbn [current_date plays_element current_plays].
    split; [rewrite Hd; reflexivity |].
    exists p. split; [exact Hat |]. split; [| split; assumption].
    apply Hp. unfold window_at. rewrite Hat.
    change (current_date st0) with (current_date st).
    now rewrite Efind.
  - destruct (returns_randint 5 60 ltac:(lia) o (N.succ pos))
      as (adv & pos' & E & Hadv).
    cbv beta iota zeta delta [bind random random_bits draw ret] in E.
    change (current_date st0) with (current_date st) in *.
    rewrite E.
    eexists _, _, adv. split; [reflexivity |].
    split; [exact Hadv |]. cbn. auto.
Qed.

Lemma play_of_play_ok (track_pool : list Track) (p : TrackPlay) :
  Forall track_wf track_pool -> play_of track_pool p ->
  play_ok (PlayedAt p) p.
Proof.
  intros Hwf (t & Hin & _ & _ & _ & _ & _ & Eg & _ & Ed & Hpd & _).
  pose proof (proj1 (Forall_forall _ _) Hwf t Hin)
    as (_ & _ & _ & Hg & _ & Hdur).
  unfold play_ok. rewrite Ed, Eg.
  repeat split; first [lia | assumption].
Qed.

Lemma year_has_23_hours : start_date + 23 * 3600 <= end_date.
Proof. vm_compute. discriminate. Qed.

Lemma pool_walk_step (total_plays : Z) (track_pool : list Track)
    (o : oracle) :
  track_pool <> [] -> Forall track_wf track_pool ->
  forall st, pool_walk_inv total_plays track_pool st ->
    walk_guard total_plays st = true ->
    returns_on o (walk_step total_plays track_pool st)
      (fun st' => pool_walk_inv total_plays track_pool st' /\
                  current_date st + 300 <= current_date st').
Proof.
  intros Hne Hwf st (HI & Hplays & Hearly) Hg pos.
  destruct (walk_step_cases total_plays track_pool st o pos Hne Hwf)
    as (st' & pos' & adv & E & Hadv & Hd & Hcase).
  exists st', pos'. split; [exact E |].
  split; [| lia].
  pose proof (Z.mod_pos_bound (o pos) (2 ^ 53) ltac:(reflexivity)) as Hk.
  destruct (Float64.ltb _ _) eqn:Hu.
  - destruct Hcase as (p & Hat & Hp & Ep & Ec).
    split; [| split].
    + apply (walk_inv_tick _ st st' HI Hg). split; [lia |].
      right. exists p. split; [| auto].
      rewrite <- Hat. exact (play_of_play_ok _ _ Hwf Hp).
    + rewrite Ep. apply Forall_app. split; [exact Hplays | now constructor].
    + unfold early_play in *. rewrite Ep.
      destruct (plays_element st); cbn [app]; [lia | exact Hearly].
  - destruct Hcase as [Ep Ec].
    split; [| split].
    + apply (walk_inv_tick _ st st' HI Hg). split; [lia | now left].
    + now rewrite Ep.
    + unfold early_play in *. rewrite Ep.
      destruct (plays_element st); [| exact Hearly].
      destruct (Z.lt_ge_cases (current_date st) (start_date + 22 * 3600))
        as [Hlt | Hge]; [lia |].
      exfalso.
      assert (Hh : hour (current_date st) = 22)
        by (apply hour_of_first_day; lia).
      rewrite (probability_at_22 _ Hh), (draw_lt_one _ Hk) in Hu.
      discriminate.
Qed.

Lemma pool_walk_inv_initial (total_plays : Z) (track_pool : list Track) :
  pool_walk_inv total_plays track_pool initial_state.
Proof.
  split; [apply walk_inv_initial |]. split; [constructor |].
  unfold early_play, initial_state. cbn. lia.
Qed.

(** The generated history on every oracle: its plays are those of a final
    state of the walk over a well-formed pool of 500 tracks. *)
Lemma returns_history_in_full (total_plays : Z) (now : datetime)
    (o : oracle) (pos : N) :
  exists root pos' track_pool st,
    create_play_history_xml_for total_plays now o pos = Ok root pos' /\
    List.length track_pool = 500%nat /\ Forall track_wf track_pool /\
    Plays root = plays_element st /\
    pool_walk_inv total_plays track_pool st /\
    walk_done total_plays st.
Proof.
  unfold create_play_history_xml_for, generate_plays, bind.
  destruct (returns_build_track_pool_wf 500 [] ltac:(constructor) o pos)
    as (track_pool & pos1 & -> & Hwf & Hlen).
  assert (Hne : track_pool <> []) by (intros ->; discriminate).
  destruct (walk_loop_on o total_plays track_pool
              (pool_walk_inv total_plays track_pool)
              (pool_walk_step _ _ o Hne Hwf) max_ticks initial_state
              (pool_walk_inv_initial _ _)
              ltac:(rewrite <- (Nat.add_0_r max_ticks);
                    apply year_fits_budget) pos1)
    as (st & pos' & -> & HI & Hdone).
  eexists _, pos', track_pool, st. cbn [ret].
  split; [reflexivity |]. cbn [Plays]. auto.
Qed.

(** ** The generated history, in full *)

Lemma first_day_23 : start_date + 23 * 3600 = make YEAR 1 1 23 0 0.
Proof. vm_compute. reflexivity. Qed.

Lemma history_starts_early (total_plays : Z) (now : datetime) (o : oracle)
    (pos : N) :
  1 <= total_plays ->
  exists root pos' p rest,
    create_play_history_xml_for total_plays now o pos = Ok root pos' /\
    Plays root = p :: rest /\
    start_date <= PlayedAt p < start_date + 23 * 3600.
Proof.
  intros Htotal.
  destruct (returns_history_in_full total_plays now o pos)
    as (root & pos' & pool & st & E & _ & _ & Ep & (HI & _ & Hearly) & Hdone).
  destruct HI as (Hlen & _ & _ & Hall & _).
  unfold early_play in Hearly.
  destruct (plays_element st) as [| p rest] eqn:Est.
  - exfalso. cbn [List.length] in Hlen.
    pose proof year_has_23_hours.
    destruct Hdone as [Hge | Hend]; lia.
  - exists root, pos', p, rest. split; [exact E |]. split; [exact Ep |].
    inversion Hall as [| ? ? (Hp & _) _]; subst. lia.
Qed.

(** X9.  With a target of at least one play the history is never empty: the
    probability of a play is 1.0 from 22:00, so the first play is stamped
    on 1 January before 23:00, on every sequence of draws. *)
Theorem first_play_on_first_day (total_plays : Z) (now : datetime)
    (o : oracle) (pos : N) :
  1 <= total_plays ->
  exists root pos' p rest,
    create_play_history_xml_for total_plays now o pos = Ok root pos' /\
    Plays root = p :: rest /\
    make YEAR 1 1 0 0 0 <= PlayedAt p < make YEAR 1 1 23 0 0.
Proof.
  intros Htotal. rewrite <- first_day_23.
  exact (history_starts_early total_plays now o pos Htotal).
Qed.

Lemma first_play_on_first_day_witness :
  1 <= TOTAL_PLAYS /\
  exists root pos' p rest,
    create_play_history_xml_for TOTAL_PLAYS 0 hourly_oracle 0%N
      = Ok root pos' /\
    Plays root = p :: rest /\
    make YEAR 1 1 0 0 0 <= PlayedAt p < make YEAR 1 1 23 0 0.
Proof.
  assert (H : 1 <= TOTAL_PLAYS) by (unfold TOTAL_PLAYS; lia).
  split; [exact H |].
  exact (first_play_on_first_day TOTAL_PLAYS 0 hourly_oracle 0%N H).
Defined.

(** X10.  With a target of at least one play the script runs to its end on
    every sequence of draws: it writes the history, the summary derived
    from it and the backup of the history, in this order, and its closing
    statistics do not divide by zero. *)
Theorem script_writes_three_files (total_plays : Z) (now now' : datetime)
    (o : oracle) :
  1 <= total_plays ->
  exists root m pos,
    create_play_history_xml_for total_plays now o 0%N = Ok root pos /\
    create_year_metadata_xml now' root = Return (Some m) /\
    main_for total_plays now now' o = (three_files root m, Ok tt pos).
Proof.
  intros Htotal.
  destruct (history_starts_early total_plays now o 0%N Htotal)
    as (root & pos & p & rest & E & Ep & _).
  destruct (summary_of_plays now' root) as (m & Em & _);
    [rewrite Ep; discriminate |].
  exists root, m, pos. split; [exact E |]. split; [exact Em |].
  unfold main_for. rewrite E, Em, Ep. reflexivity.
Qed.

Lemma script_writes_three_files_witness :
  1 <= TOTAL_PLAYS /\
  exists root m pos,
    create_play_history_xml_for TOTAL_PLAYS 0 hourly_oracle 0%N
      = Ok root pos /\
    create_year_metadata_xml 0 root = Return (Some m) /\
    main_for TOTAL_PLAYS 0 0 hourly_oracle = (three_files root m, Ok tt pos).
Proof.
  assert (H : 1 <= TOTAL_PLAYS) by (unfold TOTAL_PLAYS; lia).
  split; [exact H |].
  exact (script_writes_three_files TOTAL_PLAYS 0 0 hourly_oracle H).
Defined.

Lemma play_of_fields (track_pool : list Track) (p : TrackPlay) :
  Forall track_wf track_pool -> play_of track_pool p ->
  play_fields_ok p /\ exists t, In t track_pool /\ copies_track t p.
Proof.
  intros Hwf (t & Hin & (n & Hn & Eurl) & Et & Ea & Eb & Eaa & Eg & Ey
              & Ed & Hpd & Hpl & Hlm & _).
  pose proof (proj1 (Forall_forall _ _) Hwf t Hin)
    as (Ha & Hb & Htitle & Hg & Hy & Hdur).
  split.
  - unfold play_fields_ok. rewrite Ea, Eaa, Eb, Et, Eg, Ey, Ed.
    repeat (split; [first [assumption | reflexivity] |]).
    exists n. split; [exact Hn | exact Eurl].
  - exists t. split; [exact Hin |]. unfold copies_track. auto 10.
Qed.

(** X11.  Every play of a generated history has well-formed fields: an artist,
    an album and a genre of the tables, the artist again as album artist,
    a non-empty title, a year from 1960 to 2024, a nominal duration from
    2 to 6 minutes, a played duration from 30 s to the nominal one, a
    playlist and a listening mode of the fixed lists, and a path built
    from the artist, the album, a track number from 01 to 15 and the
    title. *)
Theorem plays_have_well_formed_fields (total_plays : Z) (now : datetime)
    (o : oracle) (pos : N) :
  exists root pos',
    create_play_history_xml_for total_plays now o pos = Ok root pos' /\
    Forall play_fields_ok (Plays root).
Proof.
  destruct (returns_history_in_full total_plays now o pos)
    as (root & pos' & pool & st & E & _ & Hwf & Ep & (_ & Hall & _) & _).
  exists root, pos'. split; [exact E |]. rewrite Ep.
  eapply Forall_impl; [| exact Hall].
  intros p Hp. exact (proj1 (play_of_fields _ _ Hwf Hp)).
Qed.

(** X12.  The plays of a generated history copy the metadata of the tracks of
    one pool of 500: a history names at most 500 different tracks. *)
Theorem plays_copy_pool_tracks (total_plays : Z) (now : datetime)
    (o : oracle) (pos : N) :
  exists root pos' track_pool pos1,
    create_play_history_xml_for total_plays now o pos = Ok root pos' /\
    build_track_pool 500 [] o pos = Ok track_pool pos1 /\
    List.length track_pool = 500%nat /\
    Forall (fun p => exists t, In t track_pool /\ copies_track t p)
           (Plays root).
Proof.
  pose proof (returns_history_in_full total_plays now o pos) as H.
  unfold create_play_history_xml_for, generate_plays, bind in H |- *.
  destruct (build_track_pool 500 [] o pos) as [pool0 pos1 | |] eqn:Eb;
    try (destruct H as (? & ? & ? & ? & H & _); discriminate).
  clear H.
  destruct (returns_build_track_pool_wf 500 [] ltac:(constructor) o pos)
    as (track_pool & pos1' & Eb' & Hwf & Hlen).
  rewrite Eb in Eb'. injection Eb' as <- <-.
  assert (Hne : pool0 <> []) by (intros ->; discriminate).
  destruct (walk_loop_on o total_plays pool0
              (pool_walk_inv total_plays pool0)
              (pool_walk_step _ _ o Hne Hwf) max_ticks initial_state
              (pool_walk_inv_initial _ _)
              ltac:(rewrite <- (Nat.add_0_r max_ticks);
                    apply year_fits_budget) pos1)
    as (st & pos' & -> & (_ & Hall & _) & _).
  eexists _, pos', pool0, pos1. cbn [ret Plays].
  split; [reflexivity |]. split; [reflexivity |]. split; [exact Hlen |].
  eapply Forall_impl; [| exact Hall].
  intros p Hp. exact (proj2 (play_of_fields _ _ Hwf Hp)).
Qed.

(** X13.  Within a window, the preferred genres are honoured whenever the pool
    allows: if some play of the history, whenever emitted, has a genre
    that the window of a play [p] prefers, then [p] has such a genre. *)
Theorem plays_follow_window_genres (total_plays : Z) (now : datetime)
    (o : oracle) (pos : N) :
  exists root pos',
    create_play_history_xml_for total_plays now o pos = Ok root pos' /\
    forall p q pat,
      In p (Plays root) -> In q (Plays root) ->
      window_at (PlayedAt p) = Some pat ->
      str_in (Genre q) (genres pat) = true ->
      str_in (Genre p) (genres pat) = true.
Proof.
  destruct (returns_history_in_full total_plays now o pos)
    as (root & pos' & pool & st & E & _ & Hwf & Ep & (_ & Hall & _) & _).
  exists root, pos'. split; [exact E |]. rewrite Ep.
  intros p q pat Hp Hq Hw Hgq.
  rewrite Forall_forall in Hall.
  destruct (Hall p Hp) as (tp & _ & _ & _ & _ & _ & _ & Egp & _ & _ & _
                           & _ & _ & Hpref).
  destruct (Hall q Hq) as (tq & Hinq & _ & _ & _ & _ & _ & Egq & _).
  rewrite Egp. apply (Hpref pat Hw).
  exists tq. split; [exact Hinq |]. now rewrite <- Egq.
Qed.

(** ** The aggregation loop, in full *)

Lemma fold_aggregate_total (plays : list TrackPlay) (s : stats) :
  total_duration (fold_left aggregate_play plays s)
  = total_duration s + total_played plays.
Proof.
  revert s. induction plays as [| p plays IH]; intros s;
    cbn [fold_left total_played fold_right].
  - lia.
  - fold (total_played plays). rewrite IH.
    unfold aggregate_play. cbn [total_duration]. lia.
Qed.

Lemma fold_aggregate_first (plays : list TrackPlay) (s : stats)
    (f : datetime) :
  first_play s = Some f ->
  exists f',
    first_play (fold_left aggregate_play plays s) = Some f' /\
    f' <= f /\ Forall (fun p => f' <= PlayedAt p) plays /\
    (f' = f \/ In f' (map PlayedAt plays)).
Proof.
  revert s f. induction plays as [| p plays IH]; intros s f Hf.
  - exists f. cbn. repeat split; [exact Hf | lia | constructor | now left].
  - cbn [fold_left].
    assert (Hf1 : first_play (aggregate_play s p)
                  = Some (if PlayedAt p <? f then PlayedAt p else f))
      by (cbn; rewrite Hf; now destruct (PlayedAt p <? f)).
    destruct (IH _ _ Hf1) as (f' & E & Hle & Hall & Hin).
    exists f'. split; [exact E |].
    destruct (Z.ltb_spec (PlayedAt p) f).
    + split; [lia |]. split; [constructor; [lia | exact Hall] |].
      right. cbn [map In]. destruct Hin as [-> | Hin]; auto.
    + split; [lia |]. split; [constructor; [lia | exact Hall] |].
      destruct Hin as [-> | Hin]; [now left | right; now right].
Qed.

Lemma fold_aggregate_last (plays : list TrackPlay) (s : stats)
    (l : datetime) :
  last_play s = Some l ->
  exists l',
    last_play (fold_left aggregate_play plays s) = Some l' /\
    l <= l' /\ Forall (fun p => PlayedAt p <= l') plays /\
    (l' = l \/ In l' (map PlayedAt plays)).
Proof.
  revert s l. induction plays as [| p plays IH]; intros s l Hl.
  - exists l. cbn. repeat split; [exact Hl | lia | constructor | now left].
  - cbn [fold_left].
    assert (Hl1 : last_play (aggregate_play s p)
                  = Some (if l <? PlayedAt p then PlayedAt p else l))
      by (cbn; rewrite Hl; now destruct (l <? PlayedAt p)).
    destruct (IH _ _ Hl1) as (l' & E & Hle & Hall & Hin).
    exists l'. split; [exact E |].
    destruct (Z.ltb_spec l (PlayedAt p)).
    + split; [lia |]. split; [constructor; [lia | exact Hall] |].
      right. cbn [map In]. destruct Hin as [-> | Hin]; auto.
    + split; [lia |]. split; [constructor; [lia | exact Hall] |].
      destruct Hin as [-> | Hin]; [now left | right; now right].
Qed.

(** The first and the last play of a non-empty sequence, as the loop
    tracks them: the least and the greatest [PlayedAt]. *)
Lemma aggregate_dates (p : TrackPlay) (plays : list TrackPlay) :
  exists first last,
    first_play (aggregate (p :: plays)) = Some first /\
    last_play (aggregate (p :: plays)) = Some last /\
    In first (map PlayedAt (p :: plays)) /\
    In last (map PlayedAt (p :: plays)) /\
    Forall (fun q => first <= PlayedAt q <= last) (p :: plays).
Proof.
  unfold aggregate. cbn [fold_left].
  destruct (fold_aggregate_first plays (aggregate_play empty_stats p)
              (PlayedAt p) eq_refl) as (f & Ef & Hf & Hfall & Hfin).
  destruct (fold_aggregate_last plays (aggregate_play empty_stats p)
              (PlayedAt p) eq_refl) as (l & El & Hl & Hlall & Hlin).
  exists f, l. split; [exact Ef |]. split; [exact El |].
  cbn [map In]. split; [destruct Hfin; auto |].
  split; [destruct Hlin; auto |].
  constructor; [lia |].
  rewrite Forall_forall in *. intros q Hq.
  specialize (Hfall q Hq). specialize (Hlall q Hq). cbv beta in *. lia.
Qed.

(** The fields of the summary that are not top items. *)
Lemma summary_fields (now : datetime) (root : PlayHistory) :
  Plays root <> [] ->
  exists m first last,
    create_year_metadata_xml now root = Return (Some m) /\
    first_play (aggregate (Plays root)) = Some first /\
    last_play (aggregate (Plays root)) = Some last /\
    Meta.FirstPlay m = first /\ Meta.LastPlay m = last /\
    Meta.TotalMinutes m = total_played (Plays root) / 60 /\
    Meta.Year m = YEAR /\ Meta.LastUpdated m = now.
Proof.
  intros Hne.
  destruct (summary_of_plays now root Hne) as (m & Em & _).
  destruct (Plays root) as [| p plays] eqn:Ep; [congruence |].
  destruct (aggregate_dates p plays) as (first & last & Ef & El & _).
  exists m, first, last. split; [exact Em |].
  split; [exact Ef |]. split; [exact El |].
  unfold create_year_metadata_xml in Em. rewrite Ep in Em.
  cbn [List.length Nat.eqb] in Em.
  fold (aggregate (p :: plays)) in Em.
  rewrite Ef, El in Em.
  pose proof (fold_aggregate_total (p :: plays) empty_stats) as Ht.
  fold (aggregate (p :: plays)) in Ht. cbn [total_duration empty_stats] in Ht.
  destruct (top_of (artists _)); [| discriminate].
  destruct (top_of (tracks _)); [| discriminate].
  destruct (match genre_counts _ with [] => _ | _ => _ end);
    [| discriminate].
  injection Em as <-.
  cbn [Meta.FirstPlay Meta.LastPlay Meta.TotalMinutes Meta.Year
       Meta.LastUpdated].
  rewrite Ht, Z.add_0_l. auto.
Qed.

(** X14.  The summary of a non-empty history gives, as first and last play, the
    least and the greatest [PlayedAt] of its plays, and as total minutes
    the whole minutes of the seconds played; it carries the year of the
    configuration. *)
Theorem summary_dates_and_minutes (now : datetime) (root : PlayHistory) :
  Plays root <> [] ->
  exists m,
    create_year_metadata_xml now root = Return (Some m) /\
    In (Meta.FirstPlay m) (map PlayedAt (Plays root)) /\
    In (Meta.LastPlay m) (map PlayedAt (Plays root)) /\
    Forall (fun p => Meta.FirstPlay m <= PlayedAt p <= Meta.LastPlay m)
           (Plays root) /\
    Meta.TotalMinutes m = total_played (Plays root) / 60 /\
    Meta.Year m = YEAR /\ Meta.LastUpdated m = now.
Proof.
  intros Hne.
  destruct (summary_fields now root Hne)
    as (m & first & last & Em & Ef & El & <- & <- & Hmin & Hy & Hu).
  exists m. split; [exact Em |].
  destruct (Plays root) as [| p plays]; [congruence |].
  destruct (aggregate_dates p plays)
    as (first' & last' & Ef' & El' & Hfin & Hlin & Hall).
  rewrite Ef in Ef'. rewrite El in El'.
  injection Ef' as <-. injection El' as <-. auto 10.
Qed.

Lemma summary_dates_and_minutes_witness :
  Plays genreless_history <> [] /\
  exists m,
    create_year_metadata_xml 0 genreless_history = Return (Some m) /\
    In (Meta.FirstPlay m) (map PlayedAt (Plays genreless_history)) /\
    In (Meta.LastPlay m) (map PlayedAt (Plays genreless_history)) /\
    Forall (fun p => Meta.FirstPlay m <= PlayedAt p <= Meta.LastPlay m)
           (Plays genreless_history) /\
    Meta.TotalMinutes m = total_played (Plays genreless_history) / 60 /\
    Meta.Year m = YEAR /\ Meta.LastUpdated m = 0.
Proof.
  assert (H : Plays genreless_history <> []) by (cbn; discriminate).
  split; [exact H |].
  exact (summary_dates_and_minutes 0 genreless_history H).
Defined.

(** X15.  The dictionaries of the aggregation loop hold, for every value, the
    number of plays that carry it, and no entry for a value no play
    carries; their keys are in the order the values are first met.  An
    empty genre is never a key of the genre dictionary. *)
Theorem aggregate_counts_are_exact (plays : list TrackPlay) :
  (forall k, Dict.get k (artists (aggregate plays))
             = count_entry (occurrences k (map Artist plays))) /\
  (forall k, Dict.get k (tracks (aggregate plays))
             = count_entry (occurrences k (map track_key plays))) /\
  (forall k, Dict.get k (genre_counts (aggregate plays))
             = count_entry (occurrences k (counted_genres plays))) /\
  Dict.keys (artists (aggregate plays)) = distinct (map Artist plays) /\
  Dict.keys (tracks (aggregate plays)) = distinct (map track_key plays) /\
  Dict.keys (genre_counts (aggregate plays))
    = distinct (counted_genres plays) /\
  Dict.get ""%string (genre_counts (aggregate plays)) = None.
Proof.
  destruct (fold_aggregate_counts plays empty_stats) as (Ea & Et & Eg).
  cbv zeta in Ea, Et, Eg. cbn [empty_stats artists tracks genre_counts]
    in Ea, Et, Eg.
  fold (aggregate plays) in Ea, Et, Eg.
  fold (count_dict (map Artist plays)) in Ea.
  fold (count_dict (map track_key plays)) in Et.
  fold (count_dict (counted_genres plays)) in Eg.
  rewrite Ea, Et, Eg.
  assert (Hget : forall l k,
             Dict.get k (count_dict l) = count_entry (occurrences k l)).
  { intros l k. rewrite get_count_dict. unfold count_entry.
    now destruct (occurrences k l). }
  repeat split; try (intros k; apply Hget); try apply keys_count_dict.
  rewrite Hget.
  assert (Hno : ~ In ""%string (counted_genres plays)).
  { unfold counted_genres. intros Hin. apply filter_In in Hin.
    destruct Hin as (_ & Hin). discriminate. }
  unfold occurrences.
  now rewrite (proj1 (count_occ_not_In string_dec _ _) Hno).
Qed.

(** ** The summary of a generated history *)

Lemma total_played_bounds (plays : list TrackPlay) :
  Forall (fun p => 30 <= PlayDuration p <= 360) plays ->
  30 * Z.of_nat (List.length plays) <= total_played plays
    <= 360 * Z.of_nat (List.length plays).
Proof.
  induction 1 as [| p plays Hp _ IH];
    cbn [total_played fold_right List.length].
  - lia.
  - fold (total_played plays). lia.
Qed.

Lemma generated_history_shape (total_plays : Z) (now : datetime)
    (o : oracle) (pos : N) :
  1 <= total_plays ->
  exists root pos' p rest,
    create_play_history_xml_for total_plays now o pos = Ok root pos' /\
    Plays root = p :: rest /\
    start_date <= PlayedAt p < start_date + 23 * 3600 /\
    Z.of_nat (List.length (Plays root)) <= total_plays /\
    Forall play_fields_ok (Plays root) /\
    Forall (fun q => start_date <= PlayedAt q <= end_date) (Plays root).
Proof.
  intros Htotal.
  destruct (returns_history_in_full total_plays now o pos)
    as (root & pos' & pool & st & E & _ & Hwf & Ep
        & (HI & Hof & Hearly) & Hdone).
  destruct HI as (Hlen & Hmax & _ & Hall & _).
  unfold early_play in Hearly.
  destruct (plays_element st) as [| p rest] eqn:Est.
  - exfalso. cbn [List.length] in Hlen.
    pose proof year_has_23_hours.
    destruct Hdone as [Hge | Hend]; lia.
  - exists root, pos', p, rest. split; [exact E |]. split; [exact Ep |].
    split; [inversion Hall as [| ? ? (Hp & _) _]; subst; lia |].
    rewrite Ep. split; [lia |]. split.
    + eapply Forall_impl; [| exact Hof].
      intros q Hq. exact (proj1 (play_of_fields _ _ Hwf Hq)).
    + eapply Forall_impl; [| exact Hall]. cbv beta. intros q (Hq & _).
      exact Hq.
Qed.

(** X16.  The summary of a history generated for a target of at least one play:
    its first play is on 1 January before 23:00 and its last play is in
    the year; it counts at least one and at most the target number of
    plays; a play counts for between half a minute and six minutes; the
    top artist and the top genre are entries of the tables. *)
Theorem summary_of_generated_history (total_plays : Z)
    (now now' : datetime) (o : oracle) (pos : N) :
  1 <= total_plays ->
  exists root pos' m,
    create_play_history_xml_for total_plays now o pos = Ok root pos' /\
    create_year_metadata_xml now' root = Return (Some m) /\
    make YEAR 1 1 0 0 0 <= Meta.FirstPlay m < make YEAR 1 1 23 0 0 /\
    Meta.FirstPlay m <= Meta.LastPlay m <= make YEAR 12 31 23 59 59 /\
    1 <= Meta.TotalPlays m <= total_plays /\
    Meta.TotalPlays m <= 2 * Meta.TotalMinutes m + 1 /\
    Meta.TotalMinutes m <= 6 * Meta.TotalPlays m /\
    In (Meta.TopArtist m) ARTISTS /\
    In (Meta.TopGenre m) GENRES.
Proof.
  intros Htotal.
  destruct (generated_history_shape total_plays now o pos Htotal)
    as (root & pos' & p & rest & E & Ep & Hp & Hlen & Hok & Hyear).
  assert (Hne : Plays root <> []) by (rewrite Ep; discriminate).
  destruct (summary_of_plays now' root Hne)
    as (m & Em & Etotal & (Hartist & _) & _ & Hgenre).
  destruct (summary_fields now' root Hne)
    as (m' & first & last & Em' & Ef & El & Hf & Hl & Hmin & _).
  rewrite Em in Em'. injection Em' as <-.
  exists root, pos', m. split; [exact E |]. split; [exact Em |].
  assert (Hdates :
    In first (map PlayedAt (Plays root)) /\
    In last (map PlayedAt (Plays root)) /\
    Forall (fun q => first <= PlayedAt q <= last) (Plays root)).
  { rewrite Ep in Ef, El |- *.
    destruct (aggregate_dates p rest)
      as (first' & last' & Ef' & El' & H1 & H2 & H3).
    rewrite Ef in Ef'. rewrite El in El'.
    injection Ef' as <-. injection El' as <-. auto. }
  destruct Hdates as (Hfin & Hlin & Hall).
  rewrite Hf, Hl, Etotal. rewrite Forall_forall in Hyear, Hall, Hok.
  apply in_map_iff in Hfin. destruct Hfin as (qf & Eqf & Hqf).
  apply in_map_iff in Hlin. destruct Hlin as (ql & Eql & Hql).
  pose proof (Hyear qf Hqf) as Hyf. pose proof (Hyear ql Hql) as Hyl.
  assert (Hpin : In p (Plays root)) by (rewrite Ep; now left).
  pose proof (Hall p Hpin) as Hfp. cbv beta in Hyf, Hyl, Hfp.
  rewrite <- first_day_23.
  change (make YEAR 1 1 0 0 0) with start_date.
  change (make YEAR 12 31 23 59 59) with end_date.
  split; [lia |]. split; [lia |].
  assert (Hlen1 : 1 <= Z.of_nat (List.length (Plays root)))
    by (rewrite Ep; cbn [List.length]; lia).
  split; [lia |].
  assert (Hsum : Forall (fun q => 30 <= PlayDuration q <= 360) (Plays root)).
  { apply Forall_forall. intros q Hq.
    destruct (Hok q Hq) as (_ & _ & _ & _ & _ & _ & Hd & Hpd & _).
    Z.div_mod_to_equations; lia. }
  pose proof (total_played_bounds _ Hsum) as Hb.
  rewrite Hmin.
  split; [Z.div_mod_to_equations; lia |].
  split; [Z.div_mod_to_equations; lia |].
  split.
  - apply in_map_iff in Hartist. destruct Hartist as (q & <- & Hq).
    exact (proj1 (Hok q Hq)).
  - assert (Hin : In (Meta.TopGenre m) (map Genre (Plays root))).
    { rewrite counted_genres_all in Hgenre.
      - clear - Hgenre Hne. revert Hgenre Hne.
        destruct (Plays root); [congruence |].
        intros (Hin & _) _. exact Hin.
      - apply Forall_forall. intros q Hq Hempty.
        pose proof (proj1 (proj2 (proj2 (proj2 (proj2 (Hok q Hq))))))
          as Hg.
        pose proof (proj1 (forallb_forall _ _) GENRES_nonempty _ Hg) as Ht.
        rewrite Hempty in Ht. discriminate. }
    apply in_map_iff in Hin. destruct Hin as (q & <- & Hq).
    exact (proj1 (proj2 (proj2 (proj2 (proj2 (Hok q Hq)))))).
Qed.

Lemma summary_of_generated_history_witness :
  1 <= 25000 /\
  exists root pos' m,
    create_play_history_xml_for 25000 0 (fun _ => 0) 0%N = Ok root pos' /\
    create_year_metadata_xml 0 root = Return (Some m) /\
    make YEAR 1 1 0 0 0 <= Meta.FirstPlay m < make YEAR 1 1 23 0 0 /\
    Meta.FirstPlay m <= Meta.LastPlay m <= make YEAR 12 31 23 59 59 /\
    1 <= Meta.TotalPlays m <= 25000 /\
    Meta.TotalPlays m <= 2 * Meta.TotalMinutes m + 1 /\
    Meta.TotalMinutes m <= 6 * Meta.TotalPlays m /\
    In (Meta.TopArtist m) ARTISTS /\
    In (Meta.TopGenre m) GENRES.
Proof.
  assert (H : 1 <= 25000) by lia.
  split; [exact H |].
  exact (summary_of_generated_history 25000 0 0 (fun _ => 0) 0%N H).
Defined.

(** ** The pace of the walk *)

(** From 22:00 to midnight a play is certain. *)
Lemma probability_late (t : datetime) :
  22 <= hour t -> probability_at t = f1_0.
Proof.
  intros Hh. pose proof (hour_range t) as Hr.
  unfold probability_at, window_at, pattern_probability.
  assert (E : hour t = 22 \/ hour t = 23) by lia.
  destruct E as [-> | ->]; destruct (5 <=? weekday t);
    vm_compute; reflexivity.
Qed.

Lemma start_date_days : start_date = 738886 * 86400.
Proof. vm_compute. reflexivity. Qed.

Lemma paced_walk_step (total_plays : Z) (track_pool : list Track)
    (o : oracle) :
  track_pool <> [] -> Forall track_wf track_pool ->
  forall st,
    pool_walk_inv total_plays track_pool st /\ paced_inv total_plays st ->
    walk_guard total_plays st = true ->
    returns_on o (walk_step total_plays track_pool st)
      (fun st' => (pool_walk_inv total_plays track_pool st' /\
                   paced_inv total_plays st') /\
                  current_date st + 300 <= current_date st').
Proof.
  intros Hne Hwf st (HI & Hsec & Hall & Hsorted & Hdays) Hg pos.
  destruct (pool_walk_step total_plays track_pool o Hne Hwf st HI Hg pos)
    as (st' & pos' & E & HI' & Hadv).
  destruct (walk_step_cases total_plays track_pool st o pos Hne Hwf)
    as (st'' & pos'' & adv & E' & Hadv' & Hd & Hcase).
  rewrite E in E'. injection E' as <- <-.
  exists st', pos'. split; [exact E |].
  split; [split; [exact HI' |] | exact Hadv].
  destruct HI as ((_ & _ & Hstart & _) & _).
  pose proof start_date_days as Es.
  assert (Hsec' : second (current_date st') = 0).
  { unfold second in *. rewrite Hd. Z.div_mod_to_equations. lia. }
  assert (Hall' : Forall (fun p => second (PlayedAt p) = 0 /\
                                   PlayedAt p + 300 <= current_date st')
                         (plays_element st)).
  { eapply Forall_impl; [| exact Hall]. cbv beta. intros q Hq. lia. }
  pose proof (Z.mod_pos_bound (o pos) (2 ^ 53) ltac:(reflexivity)) as Hk.
  destruct (Float64.ltb _ _) eqn:Hu.
  - destruct Hcase as (p & Hat & _ & Ep & Ec).
    split; [exact Hsec' |]. rewrite Ep. split; [| split].
    + apply Forall_app. split; [exact Hall' |].
      constructor; [| constructor]. rewrite Hat. split; [exact Hsec | lia].
    + rewrite map_app. cbn [map]. apply StronglySorted_snoc;
        [exact Hsorted |].
      apply Forall_map. eapply Forall_impl; [| exact Hall].
      cbv beta. intros q Hq. rewrite Hat. lia.
    + rewrite Ec, Hd. Z.div_mod_to_equations. lia.
  - destruct Hcase as [Ep Ec].
    split; [exact Hsec' |]. rewrite Ep. split; [exact Hall' |].
    split; [exact Hsorted |].
    assert (Hh : hour (current_date st) < 22).
    { destruct (Z.lt_ge_cases (hour (current_date st)) 22) as [H | H];
        [exact H | exfalso].
      rewrite (probability_late _ H), (draw_lt_one _ Hk) in Hu.
      discriminate. }
    rewrite Ec, Hd. unfold hour in Hh. Z.div_mod_to_equations. lia.
Qed.

Lemma paced_inv_initial (total_plays : Z) :
  paced_inv total_plays initial_state.
Proof.
  unfold paced_inv, initial_state.
  cbn [current_date plays_element current_plays map].
  split; [vm_compute; reflexivity |]. split; [constructor |].
  split; [constructor |].
  rewrite Z.sub_diag. change (0 / 86400) with 0. lia.
Qed.

(** The generated history on every oracle, with the pace of the walk. *)
Lemma returns_history_paced (total_plays : Z) (now : datetime)
    (o : oracle) (pos : N) :
  exists root pos' st,
    create_play_history_xml_for total_plays now o pos = Ok root pos' /\
    Plays root = plays_element st /\
    walk_inv total_plays st /\ paced_inv total_plays st /\
    walk_done total_plays st.
Proof.
  unfold create_play_history_xml_for, generate_plays, bind.
  destruct (returns_build_track_pool_wf 500 [] ltac:(constructor) o pos)
    as (track_pool & pos1 & -> & Hwf & Hlen).
  assert (Hne : track_pool <> []) by (intros ->; discriminate).
  destruct (walk_loop_on o total_plays track_pool
              (fun st => pool_walk_inv total_plays track_pool st /\
                         paced_inv total_plays st)
              (paced_walk_step _ _ o Hne Hwf) max_ticks initial_state
              (conj (pool_walk_inv_initial _ _) (paced_inv_initial _))
              ltac:(rewrite <- (Nat.add_0_r max_ticks);
                    apply year_fits_budget) pos1)
    as (st & pos' & -> & ((HI & _) & HP) & Hdone).
  eexists _, pos', st. cbn [ret].
  split; [reflexivity |]. cbn [Plays]. auto.
Qed.

Lemma paced_length (l : list Z) (lo hi : Z) :
  StronglySorted (fun a b => a + 300 <= b) l ->
  Forall (fun x => lo <= x <= hi) l -> l <> [] ->
  300 * (Z.of_nat (List.length l) - 1) <= hi - lo.
Proof.
  intros Hs. revert lo. induction Hs as [| a l Hs IH Ha]; intros lo Hall Hne.
  - congruence.
  - inversion Hall as [| ? ? Hlo Hrest]; subst.
    destruct l as [| b l'].
    + cbn [List.length]. lia.
    + assert (Hall' : Forall (fun x => a + 300 <= x <= hi) (b :: l')).
      { rewrite Forall_forall in *. intros x Hx.
        specialize (Ha x Hx). specialize (Hrest x Hx). cbv beta in *. lia. }
      specialize (IH (a + 300) Hall' ltac:(discriminate)).
      cbn [List.length] in *. lia.
Qed.

(** X17.  Every play of a generated history is stamped on a whole minute, and
    five minutes at least after the play before it; a history therefore
    holds no more than 105408 plays, whatever the target. *)
Theorem plays_are_paced (total_plays : Z) (now : datetime) (o : oracle)
    (pos : N) :
  exists root pos',
    create_play_history_xml_for total_plays now o pos = Ok root pos' /\
    Forall (fun p => second (PlayedAt p) = 0) (Plays root) /\
    StronglySorted (fun a b => a + 300 <= b) (map PlayedAt (Plays root)) /\
    Z.of_nat (List.length (Plays root)) <= 105408.
Proof.
  destruct (returns_history_paced total_plays now o pos)
    as (root & pos' & st & E & Ep & HI & (_ & Hall & Hsorted & _) & _).
  exists root, pos'. split; [exact E |]. rewrite Ep.
  split; [eapply Forall_impl; [| exact Hall]; cbv beta; tauto |].
  split; [exact Hsorted |].
  destruct HI as (_ & _ & _ & Hyear & _).
  destruct (plays_element st) as [| p rest] eqn:Est;
    [cbn [List.length]; lia |].
  rewrite <- Est in *.
  assert (Hb : Forall (fun x => start_date <= x <= end_date)
                      (map PlayedAt (plays_element st))).
  { apply Forall_map. eapply Forall_impl; [| exact Hyear].
    cbv beta. tauto. }
  pose proof (paced_length _ _ _ Hsorted Hb
                ltac:(rewrite Est; discriminate)) as Hlen.
  rewrite length_map in Hlen.
  assert (Ey : end_date - start_date = 31622399)
    by (vm_compute; reflexivity).
  lia.
Qed.

(** X18.  As long as the target is not reached every day of the year brings a
    play, because a play is certain from 22:00 and the clock moves by an
    hour at most: a history holds at least 366 plays, or as many as the
    target when the target is smaller, and a target of up to 366 plays is
    always reached exactly. *)
Theorem one_play_a_day (total_plays : Z) (now : datetime) (o : oracle)
    (pos : N) :
  exists root pos',
    create_play_history_xml_for total_plays now o pos = Ok root pos' /\
    Z.min total_plays 366 <= Z.of_nat (List.length (Plays root))
      <= Z.max 0 total_plays.
Proof.
  destruct (returns_history_paced total_plays now o pos)
    as (root & pos' & st & E & Ep & HI & (_ & _ & _ & Hdays) & Hdone).
  exists root, pos'. split; [exact E |]. rewrite Ep.
  destruct HI as (Hlen & Hmax & _).
  rewrite <- Hlen. split; [| exact Hmax].
  assert (Ey : end_date = start_date + 366 * 86400 - 1)
    by (vm_compute; reflexivity).
  destruct Hdone as [Hge | Hend]; [lia |].
  assert (366 <= (current_date st - start_date) / 86400)
    by (Z.div_mod_to_equations; lia).
  lia.
Qed.
